(** * Rate-limited message dispatch of the Aether auto-typer

    A shallow embedding of the dispatch engine of the repository:
    - [DiscordRateLimiter]: class [DiscordRateLimiter] of [main.py]
      (the copies in [heal_md_enhanced_bridge.py] and
      [python/main/main.py] are textually the same);
    - [DiscordAutoSender]: the queue part of class [DiscordAutoSender]
      of [main.py];
    - [Transmitter]: [send_message_advanced] of
      [heal_md_enhanced_bridge.py] (the copy in [python/main/main.py]
      has the same text, but its file defines no
      [focus_discord_window]: there every attempt raises [NameError]
      and takes the [except] path);
    - [Bridge], [WorkingCopy]: the schedulers of
      [heal_md_enhanced_bridge.py] and [Working Versions/main - Copy.py],
      over [PyStr] (the string methods they call) and [Calendar]
      ([datetime] objects);
    - [MainWindow]: [get_messages], [undo] and [redo] of [main.py];
    - [Usage], [Pace], [QueueUsage], [Typing], [Text]: what the
      statements about sequences of calls, traces and strings are
      written with.

    Conventions.  Python floats (time stamps and durations in seconds)
    are modelled by exact rationals [Q]: the properties below only use
    the order of these numbers, the product [d * 2.0], which floats
    compute exactly, and bounds on the product [d * 0.9], which floats
    round.  Each call of [time.time()] is an explicit argument
    [now] (or an oracle of successive readings), so that every theorem
    holds whatever the clock returns. *)

From Stdlib Require Import String Ascii QArith Qpower Qminmax ZArith List Sorted Bool Lia Lqa.
Import ListNotations.

Local Open Scope Q_scope.

(** ** Python built-ins on numbers *)

(** [a < b] on floats, as a boolean. *)
Definition Qltb (a b : Q) : bool := negb (Qle_bool b a).

(** [max(a, b)]: the first argument unless the second is strictly
    larger. *)
Definition py_max (a b : Q) : Q := if Qltb a b then b else a.

(** [min(a, b)]: the first argument unless the second is strictly
    smaller. *)
Definition py_min (a b : Q) : Q := if Qltb b a then b else a.

(** ** The rate limiter *)

Module DiscordRateLimiter.

(** The attributes set by [__init__]. *)
Record t : Type := mk {
  message_history   : list Q;
  burst_threshold   : Z;
  burst_window      : Q;
  rate_limit        : Q;
  exponential_delay : Q;
  max_delay         : Q;
  queue_size        : Z;
  total_processed   : Z;
  rate_limit_hits   : Z;
  last_burst_time   : Q
}.

(** [DiscordRateLimiter()] *)
Definition init : t :=
  {| message_history := [];
     burst_threshold := 5;
     burst_window := 10;
     rate_limit := 1 # 2;
     exponential_delay := 1;
     max_delay := 30;
     queue_size := 0;
     total_processed := 0;
     rate_limit_hits := 0;
     last_burst_time := 0 |}.

Definition set_message_history (h : list Q) (s : t) : t :=
  mk h (burst_threshold s) (burst_window s) (rate_limit s)
     (exponential_delay s) (max_delay s) (queue_size s)
     (total_processed s) (rate_limit_hits s) (last_burst_time s).

Definition set_last_burst_time (x : Q) (s : t) : t :=
  mk (message_history s) (burst_threshold s) (burst_window s)
     (rate_limit s) (exponential_delay s) (max_delay s) (queue_size s)
     (total_processed s) (rate_limit_hits s) x.

Definition set_total_processed (n : Z) (s : t) : t :=
  mk (message_history s) (burst_threshold s) (burst_window s)
     (rate_limit s) (exponential_delay s) (max_delay s) (queue_size s)
     n (rate_limit_hits s) (last_burst_time s).

Definition set_rate_limit_hits (n : Z) (s : t) : t :=
  mk (message_history s) (burst_threshold s) (burst_window s)
     (rate_limit s) (exponential_delay s) (max_delay s) (queue_size s)
     (total_processed s) n (last_burst_time s).

Definition set_exponential_delay (d : Q) (s : t) : t :=
  mk (message_history s) (burst_threshold s) (burst_window s)
     (rate_limit s) d (max_delay s) (queue_size s)
     (total_processed s) (rate_limit_hits s) (last_burst_time s).

(** [[t for t in self.message_history
      if current_time - t < self.burst_window]] *)
Definition recent (s : t) (current_time : Q) : list Q :=
  filter (fun x => Qltb (current_time - x) (burst_window s))
         (message_history s).

(** [bool(l)] of a list: true when it is not empty. *)
Definition nonempty {A : Type} (l : list A) : bool :=
  match l with [] => false | _ :: _ => true end.

(** [can_send_message]: the answer and the limiter afterwards;
    [current_time] is the value read from [time.time()]. *)
Definition can_send_message (s : t) (current_time : Q) : bool * t :=
  let s1 := set_message_history (recent s current_time) s in
  if (burst_threshold s1 <=? Z.of_nat (length (message_history s1)))%Z
  then (false, set_last_burst_time current_time s1)
  else if nonempty (message_history s1)
          && Qltb (current_time - last (message_history s1) 0)
                  (rate_limit s1)
  then (false, s1)
  else (true, s1).

(** [register_message_sent] *)
Definition register_message_sent (s : t) (current_time : Q) : t :=
  let s1 := set_message_history (message_history s ++ [current_time]) s in
  let s2 := set_total_processed (total_processed s1 + 1)%Z s1 in
  set_exponential_delay
    (py_max (1 # 2) (exponential_delay s2 * (9 # 10))) s2.

(** [register_rate_limit_hit] *)
Definition register_rate_limit_hit (s : t) : t :=
  let s1 := set_rate_limit_hits (rate_limit_hits s + 1)%Z s in
  set_exponential_delay
    (py_min (max_delay s1) (exponential_delay s1 * 2)) s1.

(** [get_recommended_delay] (it calls [can_send_message], which
    prunes the history). *)
Definition get_recommended_delay (s : t) (current_time : Q) : Q * t :=
  let (ok, s1) := can_send_message s current_time in
  if negb ok then (exponential_delay s1, s1)
  else (py_max (rate_limit s1) (1 # 10), s1).

(** The dictionary returned by [get_queue_status]. *)
Record status : Type := mk_status {
  st_can_send          : bool;
  st_recent_messages   : nat;
  st_burst_threshold   : Z;
  st_recommended_delay : Q;
  st_total_processed   : Z;
  st_rate_limit_hits   : Z;
  st_exponential_delay : Q
}.

(** [get_queue_status]: [t0] is the reading of the clock taken by
    the function itself, [t1] the one taken inside its call of
    [can_send_message] and [t2] the one inside its call of
    [get_recommended_delay]; the entries of the dictionary are
    evaluated in the order they are written. *)
Definition get_queue_status (s : t) (t0 t1 t2 : Q) : status * t :=
  let recent_messages := length (recent s t0) in
  let (cs, s1) := can_send_message s t1 in
  let bt := burst_threshold s1 in
  let (rd, s2) := get_recommended_delay s1 t2 in
  (mk_status cs recent_messages bt rd (total_processed s2)
             (rate_limit_hits s2) (exponential_delay s2), s2).

(** The calls that change or query a limiter. *)
Inductive op : Type :=
| CanSend (current_time : Q)
| RegisterSent (current_time : Q)
| RegisterLimitHit.

Definition step (s : t) (o : op) : t :=
  match o with
  | CanSend now => snd (can_send_message s now)
  | RegisterSent now => register_message_sent s now
  | RegisterLimitHit => register_rate_limit_hit s
  end.

(** The limiter after the calls [ops], made in this order. *)
Definition run (ops : list op) (s : t) : t := fold_left step ops s.

(** What every reachable limiter satisfies. *)
Definition bounded (s : t) : Prop :=
  rate_limit s == 1 # 2 /\ max_delay s == 30 /\
  rate_limit s <= exponential_delay s /\
  exponential_delay s <= max_delay s.

End DiscordRateLimiter.

(** ** The queue of [main.py] *)

Module DiscordAutoSender.

(** The texts written to [status_var] by the methods below. *)
Inductive status_text : Type :=
| Idle
| AlreadySending
| StartedSending
| StoppedSending
| SentOne (msg : string)
| RateLimitedWaiting
| SentAll (count : nat) (delay : Q)
| QueuePaused
| QueueResumed
| QueueCancelled.

(** The attributes of the application the queue methods use. *)
Record t : Type := mk {
  is_sending       : bool;
  queue_paused     : bool;
  analytics_sent   : Z;
  analytics_errors : Z;
  rate_limiter     : DiscordRateLimiter.t;
  status_var       : status_text
}.

(** The attributes after [__init__]. *)
Definition init : t :=
  {| is_sending := false;
     queue_paused := false;
     analytics_sent := 0;
     analytics_errors := 0;
     rate_limiter := DiscordRateLimiter.init;
     status_var := Idle |}.

(** [stop_sending] *)
Definition stop_sending (a : t) : t :=
  mk false (queue_paused a) (analytics_sent a) (analytics_errors a)
     (rate_limiter a) StoppedSending.

(** [pause_queue] *)
Definition pause_queue (a : t) : t :=
  mk (is_sending a) true (analytics_sent a) (analytics_errors a)
     (rate_limiter a) QueuePaused.

(** [resume_queue] *)
Definition resume_queue (a : t) : t :=
  mk (is_sending a) false (analytics_sent a) (analytics_errors a)
     (rate_limiter a) QueueResumed.

(** [cancel_queue] *)
Definition cancel_queue (a : t) : t :=
  mk false (queue_paused a) (analytics_sent a) (analytics_errors a)
     (rate_limiter a) QueueCancelled.

(** The buttons another thread (the Tk main loop) may press while
    [send_messages] runs, among those that only write the two flags.
    Pressing Start again, or a timer of [schedule_message] firing,
    would run a second [send_messages] on the same limiter: the
    interleaving of two loops is outside this model. *)
Inductive action : Type := Pause | Resume | Cancel | Stop.

Definition perform (a : t) (x : action) : t :=
  match x with
  | Pause => pause_queue a
  | Resume => resume_queue a
  | Cancel => cancel_queue a
  | Stop => stop_sending a
  end.

(** What one turn of the loop of [send_messages] observes of its
    environment: the buttons pressed since the previous turn, the
    reading of [time.time()] inside [can_send_message], and the
    second reading of the turn (inside [register_message_sent] when
    the message is allowed, inside [get_recommended_delay]
    otherwise). *)
Record turn : Type := mk_turn {
  pressed : list action;
  t_check : Q;
  t_after : Q
}.

(** What the loop does that can be seen from outside. *)
Inductive event : Type :=
| Delivered (msg : string)
| Denied (msg : string)
| Slept (seconds : Q).

(** The body of the loop for [msg], once [is_sending] was found
    true. *)
Definition send_one (a : t) (msg : string) (tn : turn) : t * list event :=
  let (ok, rl1) :=
    DiscordRateLimiter.can_send_message (rate_limiter a) (t_check tn) in
  if ok then
    (mk (is_sending a) (queue_paused a) (analytics_sent a + 1)%Z
        (analytics_errors a)
        (DiscordRateLimiter.register_message_sent rl1 (t_after tn))
        (SentOne msg),
     [Delivered msg])
  else
    let rl2 := DiscordRateLimiter.register_rate_limit_hit rl1 in
    let (d, rl3) :=
      DiscordRateLimiter.get_recommended_delay rl2 (t_after tn) in
    (mk (is_sending a) (queue_paused a) (analytics_sent a)
        (analytics_errors a + 1)%Z rl3 RateLimitedWaiting,
     [Denied msg; Slept d]).

(** [for msg in messages: ...], from turn number [i] on. *)
Fixpoint send_loop (env : nat -> turn) (delay : Q) (i : nat)
         (messages : list string) (a : t) : t * list event :=
  match messages with
  | [] => (a, [])
  | msg :: rest =>
      let a0 := fold_left perform (pressed (env i)) a in
      if negb (is_sending a0) then (a0, [])
      else
        let (a1, evs) := send_one a0 msg (env i) in
        let (a2, tr) := send_loop env delay (S i) rest a1 in
        (a2, evs ++ Slept delay :: tr)
  end.

(** [send_messages(messages, delay)] *)
Definition send_messages (env : nat -> turn) (a : t)
           (messages : list string) (delay : Q) : t * list event :=
  let (a1, tr) := send_loop env delay 0 messages a in
  (mk false (queue_paused a1) (analytics_sent a1) (analytics_errors a1)
      (rate_limiter a1) (SentAll (List.length messages) delay),
   tr).

(** [start_sending], for the messages and the delay it reads from the
    window: the thread it starts runs [send_messages]. *)
Definition start_sending (env : nat -> turn) (a : t)
           (messages : list string) (delay : Q) : t * list event :=
  if is_sending a then
    (mk (is_sending a) (queue_paused a) (analytics_sent a)
        (analytics_errors a) (rate_limiter a) AlreadySending, [])
  else
    send_messages env
      (mk true (queue_paused a) (analytics_sent a) (analytics_errors a)
          (rate_limiter a) StartedSending)
      messages delay.

(** The messages handed over, in the order they were. *)
Fixpoint delivered (tr : list event) : list string :=
  match tr with
  | [] => []
  | Delivered m :: tr' => m :: delivered tr'
  | _ :: tr' => delivered tr'
  end.

(** The messages refused by the limiter. *)
Fixpoint denied (tr : list event) : list string :=
  match tr with
  | [] => []
  | Denied m :: tr' => m :: denied tr'
  | _ :: tr' => denied tr'
  end.

(** The messages the loop looked at, delivered or not. *)
Fixpoint handled (tr : list event) : list string :=
  match tr with
  | [] => []
  | Delivered m :: tr' => m :: handled tr'
  | Denied m :: tr' => m :: handled tr'
  | Slept _ :: tr' => handled tr'
  end.

(** No button is pressed. *)
Definition quiet (clock : nat -> Q) : nat -> turn :=
  fun i => mk_turn [] (clock i) (clock i).

(** Two applications that differ at most by [queue_paused] and the
    status text. *)
Definition same_queue (a b : t) : Prop :=
  is_sending a = is_sending b /\
  analytics_sent a = analytics_sent b /\
  analytics_errors a = analytics_errors b /\
  rate_limiter a = rate_limiter b.

Definition is_pause_or_resume (x : action) : bool :=
  match x with Pause | Resume => true | Cancel | Stop => false end.

(** The environment [env] with the presses of Pause and Resume left
    out. *)
Definition without_pauses (env : nat -> turn) : nat -> turn :=
  fun i => mk_turn (filter (fun x => negb (is_pause_or_resume x))
                           (pressed (env i)))
                   (t_check (env i)) (t_after (env i)).

(** The environment [env] with only the presses of Pause and Resume
    left in. *)
Definition only_pauses (env : nat -> turn) : nat -> turn :=
  fun i => mk_turn (filter is_pause_or_resume (pressed (env i)))
                   (t_check (env i)) (t_after (env i)).

(** A clock that only advances while the loop sleeps [delay] seconds
    between two messages. *)
Definition paced (delay : Q) : nat -> Q :=
  fun i => inject_Z (Z.of_nat i) * delay.

(** Pause is pressed before the first message and Resume never. *)
Definition paused_at_start (clock : nat -> Q) : nat -> turn :=
  fun i => mk_turn (match i with O => [Pause] | S _ => [] end)
                   (clock i) (clock i).

End DiscordAutoSender.

(** [l1] is [l2] with some elements left out. *)
Inductive Subseq {A : Type} : list A -> list A -> Prop :=
| Subseq_nil : Subseq [] []
| Subseq_skip x l1 l2 : Subseq l1 l2 -> Subseq l1 (x :: l2)
| Subseq_keep x l1 l2 : Subseq l1 l2 -> Subseq (x :: l1) (x :: l2).

(** ** The retrying transmitter: [send_message_advanced] *)

Module Transmitter.

(** The dictionary [settings]: a key may be missing. *)
Record settings : Type := mk_settings {
  retry_attempts     : option Z;
  typing_speed       : option Q;
  random_delay       : option bool;
  min_delay          : option Q;
  max_delay          : option Q;
  mistake_simulation : option bool;
  mistake_rate       : option Q
}.

(** [settings.get(key, default)] *)
Definition get {A : Type} (field : option A) (default : A) : A :=
  match field with Some x => x | None => default end.

(** The empty dictionary. *)
Definition no_settings : settings :=
  mk_settings None None None None None None None.

Inductive key : Type :=
| Write (c : ascii)
| Backspace
| Enter.

(** What the function does that can be seen from outside: calls of
    [focus_discord_window] with their result, calls of the keyboard
    that went through, [sleep], [log_error] and the final
    [show_error_dialog]. *)
Inductive event : Type :=
| Focus (ok : bool)
| Key (k : key)
| Sleep (seconds : Q)
| LogError (attempt : nat)
| ErrorDialog (max_attempts : Z).

(** The collaborators, by attempt number: the result of
    [focus_discord_window()]; whether the [n]-th call of the keyboard
    in this attempt goes through ([false]: it raises); and, by
    attempt and index of the character, the draws of
    [random.random()], [random.choice(...)] and
    [random.uniform(min_delay, max_delay)]. *)
Record env : Type := mk_env {
  focus   : nat -> bool;
  key_ok  : nat -> nat -> bool;
  random  : nat -> nat -> Q;
  choice  : nat -> nat -> ascii;
  uniform : nat -> nat -> Q
}.

(** Code that emits events, counts the calls of the keyboard and may
    raise: from the count before, the events, and the result with the
    count after, or [None] when an exception was raised. *)
Definition M (A : Type) : Type := nat -> list event * option (A * nat).

Definition ret {A : Type} (x : A) : M A := fun n => ([], Some (x, n)).

Definition bind {A B : Type} (m : M A) (f : A -> M B) : M B :=
  fun n =>
    match m n with
    | (ev, None) => (ev, None)
    | (ev, Some (x, n')) =>
        match f x n' with (ev', r) => ((ev ++ ev')%list, r) end
    end.

Notation "m ;; k" := (bind m (fun _ => k))
  (at level 61, right associativity).

(** [sleep(seconds)]: [time.sleep] raises [ValueError] when the
    duration is negative, and the settings are not validated. *)
Definition sleep (seconds : Q) : M unit :=
  fun n => if Qltb seconds 0 then ([], None)
           else ([Sleep seconds], Some (tt, n)).

(** A call of the keyboard in attempt [attempt]. *)
Definition press (e : env) (attempt : nat) (k : key) : M unit :=
  fun n => if key_ok e attempt n then ([Key k], Some (tt, S n))
           else ([], None).

Definition when (b : bool) (m : M unit) : M unit :=
  if b then m else ret tt.

(** [for char in message: ...], from the character of index [j]. *)
Fixpoint type_chars (e : env) (s : settings) (attempt : nat)
         (chars : list ascii) (j : nat) : M unit :=
  match chars with
  | [] => ret tt
  | char :: rest =>
      when (get (mistake_simulation s) false
            && Qltb (random e attempt j) (get (mistake_rate s) (1 # 100)))
           (press e attempt (Write (choice e attempt j)) ;;
            sleep (get (typing_speed s) (1 # 100)) ;;
            press e attempt Backspace) ;;
      press e attempt (Write char) ;;
      (if get (random_delay s) false
       then sleep (uniform e attempt j)
       else sleep (get (typing_speed s) (1 # 100))) ;;
      type_chars e s attempt rest (S j)
  end.

(** The body of [try:] after the window was focused. *)
Definition transmit (e : env) (s : settings) (attempt : nat)
           (message : string) : M unit :=
  type_chars e s attempt (list_ascii_of_string message) 0 ;;
  press e attempt Enter.

(** [for attempt in range(attempt, attempt + remaining): ...] and what
    follows the loop.  The handler's own calls, [log_error] (which
    appends to a file) and [sleep(1)], are taken to return. *)
Fixpoint attempts_loop (e : env) (s : settings) (message : string)
         (remaining : nat) (attempt : nat) : bool * list event :=
  match remaining with
  | O => (false, [ErrorDialog (get (retry_attempts s) 3%Z)])
  | S remaining' =>
      if negb (focus e attempt) then
        let (r, tr) := attempts_loop e s message remaining' (S attempt) in
        (r, Focus false :: tr)
      else
        match transmit e s attempt message 0%nat with
        | (ev, Some _) => (true, Focus true :: ev)
        | (ev, None) =>
            let (r, tr) :=
              attempts_loop e s message remaining' (S attempt) in
            (r, Focus true :: ev ++ LogError attempt :: Sleep 1 :: tr)
        end
  end.

(** [send_message_advanced(message, settings)]: the Boolean it
    returns and what it did. *)
Definition send_message_advanced (e : env) (message : string)
           (s : settings) : bool * list event :=
  attempts_loop e s message (Z.to_nat (get (retry_attempts s) 3%Z)) 1.

(** The attempts made: each begins with a call of
    [focus_discord_window]. *)
Fixpoint attempts (tr : list event) : nat :=
  match tr with
  | [] => O
  | Focus _ :: tr' => S (attempts tr')
  | _ :: tr' => attempts tr'
  end.

(** Code that never calls [focus_discord_window]. *)
Definition focus_free {A : Type} (m : M A) : Prop :=
  forall n, attempts (fst (m n)) = 0%nat.

(** Attempt number [attempt] fails: the window cannot be focused, or
    a call of the keyboard or of [sleep] raises. *)
Definition fails (e : env) (s : settings) (message : string)
           (attempt : nat) : Prop :=
  focus e attempt = false \/ snd (transmit e s attempt message 0%nat) = None.

(** The window is never found. *)
Definition no_window : env :=
  mk_env (fun _ => false) (fun _ _ => true) (fun _ _ => 1)
         (fun _ _ => "a"%char) (fun _ _ => 0).

(** The window is found and every call of the keyboard raises. *)
Definition no_keyboard : env :=
  mk_env (fun _ => true) (fun _ _ => false) (fun _ _ => 1)
         (fun _ _ => "a"%char) (fun _ _ => 0).

(** Everything works. *)
Definition all_fine : env :=
  mk_env (fun _ => true) (fun _ _ => true) (fun _ _ => 1)
         (fun _ _ => "a"%char) (fun _ _ => 0).

End Transmitter.

(** ** Python strings and dates *)

(** Strings are lists of characters; a character stands for the code
    point of the same number (below 256). *)
Module PyStr.

(** [c.isspace()] *)
Definition is_space (c : ascii) : bool :=
  let n := nat_of_ascii c in
  ((9 <=? n) && (n <=? 13) || (28 <=? n) && (n <=? 32)
   || (n =? 133) || (n =? 160))%nat.

(** The characters at which [splitlines] cuts. *)
Definition is_line_boundary (c : ascii) : bool :=
  let n := nat_of_ascii c in
  ((10 <=? n) && (n <=? 13) || (28 <=? n) && (n <=? 30) || (n =? 133))%nat.

Fixpoint lstrip_chars (l : list ascii) : list ascii :=
  match l with
  | [] => []
  | c :: rest => if is_space c then lstrip_chars rest else l
  end.

(** [s.strip()] *)
Definition strip_chars (l : list ascii) : list ascii :=
  rev (lstrip_chars (rev (lstrip_chars l))).

Definition strip (s : string) : string :=
  string_of_list_ascii (strip_chars (list_ascii_of_string s)).

(** [s.splitlines()]; [cur] is the line being read, backwards.  A
    carriage return followed by a line feed is one boundary. *)
Fixpoint splitlines_chars (cur : list ascii) (l : list ascii)
  : list (list ascii) :=
  match l with
  | [] => match cur with [] => [] | _ :: _ => [rev cur] end
  | c :: rest =>
      if is_line_boundary c then
        rev cur ::
        match rest with
        | c' :: rest' =>
            if ((nat_of_ascii c =? 13) && (nat_of_ascii c' =? 10))%nat
            then splitlines_chars [] rest'
            else splitlines_chars [] rest
        | [] => splitlines_chars [] rest
        end
      else splitlines_chars (c :: cur) rest
  end.

Definition splitlines (s : string) : list string :=
  map string_of_list_ascii (splitlines_chars [] (list_ascii_of_string s)).

(** [bool(s)] *)
Definition nonempty (s : string) : bool :=
  match s with EmptyString => false | String _ _ => true end.

Definition newline : string := String (ascii_of_nat 10) EmptyString.

End PyStr.

(** Naive [datetime] objects, field by field. *)
Module Calendar.

Local Open Scope Z_scope.

Record datetime : Type := mk {
  year : Z; month : Z; day : Z;
  hour : Z; minute : Z; second : Z; microsecond : Z
}.

(** [datetime.time] *)
Record time : Type := mk_time {
  t_hour : Z; t_minute : Z; t_second : Z; t_microsecond : Z
}.

Definition is_leap (y : Z) : bool :=
  (y mod 4 =? 0) && (negb (y mod 100 =? 0) || (y mod 400 =? 0)).

Definition days_in_month (y m : Z) : Z :=
  if (m =? 2) then (if is_leap y then 29 else 28)
  else if (m =? 4) || (m =? 6) || (m =? 9) || (m =? 11) then 30
  else 31.

Definition valid_date (y m d : Z) : bool :=
  (1 <=? y) && (y <=? 9999) && (1 <=? m) && (m <=? 12)
  && (1 <=? d) && (d <=? days_in_month y m).

Definition valid_time (t : time) : bool :=
  (0 <=? t_hour t) && (t_hour t <=? 23)
  && (0 <=? t_minute t) && (t_minute t <=? 59)
  && (0 <=? t_second t) && (t_second t <=? 59)
  && (0 <=? t_microsecond t) && (t_microsecond t <=? 999999).

(** [d.time()] *)
Definition time_of (d : datetime) : time :=
  mk_time (hour d) (minute d) (second d) (microsecond d).

(** The values a [datetime] object can have. *)
Definition valid (d : datetime) : bool :=
  valid_date (year d) (month d) (day d) && valid_time (time_of d).

Definition fields (d : datetime) : list Z :=
  [year d; month d; day d; hour d; minute d; second d; microsecond d].

Fixpoint lex (l1 l2 : list Z) : comparison :=
  match l1, l2 with
  | x :: l1', y :: l2' =>
      match x ?= y with Eq => lex l1' l2' | c => c end
  | [], [] => Eq
  | [], _ :: _ => Lt
  | _ :: _, [] => Gt
  end.

Definition compare (a b : datetime) : comparison :=
  lex (fields a) (fields b).

(** [a < b] *)
Definition ltb (a b : datetime) : bool :=
  match compare a b with Lt => true | _ => false end.

(** [a <= b] *)
Definition leb (a b : datetime) : bool :=
  match compare a b with Gt => false | _ => true end.

(** [datetime.combine(d.date(), t)] *)
Definition combine (d : datetime) (t : time) : datetime :=
  mk (year d) (month d) (day d)
     (t_hour t) (t_minute t) (t_second t) (t_microsecond t).

(** [datetime.strptime(s, "%H:%M")] when [s] reads as [h] hours and
    [m] minutes: the date is 1 January 1900. *)
Definition strptime_HM (h m : Z) : datetime := mk 1900 1 1 h m 0 0.

(** [d.replace(year=y, month=m, day=dd)]; [None] stands for
    [ValueError]. *)
Definition replace_date (d : datetime) (y m dd : Z) : option datetime :=
  if valid_date y m dd
  then Some (mk y m dd (hour d) (minute d) (second d) (microsecond d))
  else None.

(** [d.replace(day=dd)]; [None] stands for [ValueError]. *)
Definition replace_day (d : datetime) (dd : Z) : option datetime :=
  replace_date d (year d) (month d) dd.

(** [d + timedelta(days=1)]; [None] stands for [OverflowError]. *)
Definition add_one_day (d : datetime) : option datetime :=
  if day d <? days_in_month (year d) (month d) then
    Some (mk (year d) (month d) (day d + 1)
             (hour d) (minute d) (second d) (microsecond d))
  else if month d <? 12 then
    Some (mk (year d) (month d + 1) 1
             (hour d) (minute d) (second d) (microsecond d))
  else if year d <? 9999 then
    Some (mk (year d + 1) 1 1
             (hour d) (minute d) (second d) (microsecond d))
  else None.

End Calendar.

(** ** The scheduler of [heal_md_enhanced_bridge.py] *)

Module Bridge.
Import Calendar.

Definition placeholder : string :=
  "Type your message(s) here. Each line is a separate message.".

(** What the user typed in the time field, as
    [datetime.strptime(time_str, "%H:%M")] reads it. *)
Inductive time_field : Type :=
| Blank
| Malformed
| HourMinute (h m : Z).

Inductive error_text : Type :=
| PleaseEnterTime
| PleaseEnterMessage
| InvalidTimeFormat.

(** The attributes of the application the scheduler uses;
    [message_entry] is the text of the message box. *)
Record t : Type := mk {
  scheduled_messages : list (datetime * string);
  message_entry      : string;
  status_var         : string
}.

(** How a call of [schedule_message_advanced] ends. *)
Inductive outcome : Type :=
| ShowError (text : error_text) (a : t)
  (** an error box; nothing is stored *)
| StoredWithoutTimer (send_time : datetime) (a : t)
  (** the message is stored; [self._wait_and_send], which the class
      does not define, then raises [AttributeError] and no thread is
      started *)
| Overflow.
  (** the date addition raised [OverflowError] *)

(** [schedule_message_advanced], called at time [now]. *)
Definition schedule_message_advanced (a : t) (field : time_field)
           (now : datetime) : outcome :=
  match field with
  | Blank => ShowError PleaseEnterTime a
  | Malformed => ShowError InvalidTimeFormat a
  | HourMinute h m =>
      let time_obj := time_of (strptime_HM h m) in
      let msg := PyStr.strip (message_entry a ++ PyStr.newline) in
      if negb (PyStr.nonempty msg) || String.eqb msg placeholder
      then ShowError PleaseEnterMessage a
      else
        let send_time := combine now time_obj in
        let normalized :=
          if leb send_time now then add_one_day send_time
          else Some send_time in
        match normalized with
        | None => Overflow
        | Some send_time' =>
            StoredWithoutTimer send_time'
              (mk (scheduled_messages a ++ [(send_time', msg)])
                  (message_entry a) (status_var a))
        end
  end.

(** [cancel_queue] *)
Definition cancel_queue (a : t) : t :=
  mk [] (message_entry a) "Queue cancelled.".

End Bridge.

(** ** The scheduler of [Working Versions/main - Copy.py] *)

Module WorkingCopy.
Import Calendar.

Definition placeholder : string :=
  "Type your message(s) here. Each line is a separate message.".

(** The answer to the dialog "Enter time (HH:MM, 24h)", as
    [datetime.strptime(time_str, "%H:%M")] reads it. *)
Inductive time_answer : Type :=
| NoAnswer
| Malformed
| HourMinute (h m : Z).

Inductive status_text : Type :=
| Idle
| NoMessageToSchedule
| ScheduledFor (send_time : datetime)
| InvalidTimeFormat
| NoMessagesToSend
| InvalidDelay
| SendingMessages
| SentCount (done total : nat)
| DoneSending
| QueuePaused
| QueueResumed
| QueueCancelled.

(** The lines written by [self.log]. *)
Inductive log_line : Type :=
| LogScheduled (send_time : datetime)
| LogSent (msg : string)
| LogSessionEnded.

(** The daemon threads the application starts.  Nothing keeps a
    handle on them. *)
Inductive thread : Type :=
| WaitAndSend (send_time : datetime) (msg : string)
| SendMessages (messages : list string) (delay : Q).

(** The attributes of the application the scheduler and the queue
    use.  [message_entry] is the text of the message box,
    [delay_var] the number in the delay field ([None] when it does
    not read as a number), [threads] the threads started so far, in
    the order they were. *)
Record t : Type := mk {
  message_entry      : string;
  delay_var          : option Q;
  is_sending         : bool;
  queue_paused       : bool;
  scheduled_messages : list (datetime * string);
  status_var         : status_text;
  threads            : list thread;
  session_log        : list log_line
}.

Definition init : t :=
  mk placeholder (Some 1%Q) false false [] Idle [] [].

Definition set_status (st : status_text) (a : t) : t :=
  mk (message_entry a) (delay_var a) (is_sending a) (queue_paused a)
     (scheduled_messages a) st (threads a) (session_log a).

Definition set_message_entry (text : string) (a : t) : t :=
  mk text (delay_var a) (is_sending a) (queue_paused a)
     (scheduled_messages a) (status_var a) (threads a) (session_log a).

(** [self.message_entry.get("0.0", ctk.END)]: the widget adds a line
    feed to its text. *)
Definition entry_get (a : t) : string :=
  (message_entry a ++ PyStr.newline)%string.

(** [get_messages] *)
Definition get_messages (a : t) : list string :=
  let text := PyStr.strip (entry_get a) in
  if negb (PyStr.nonempty text) || String.eqb text placeholder then []
  else
    filter PyStr.nonempty (map PyStr.strip (PyStr.splitlines text)).

(** [get_delay] *)
Definition get_delay (a : t) : option Q := delay_var a.

(** [start_sending] *)
Definition start_sending (a : t) : t :=
  let messages := get_messages a in
  match messages, get_delay a with
  | [], _ => set_status NoMessagesToSend a
  | _ :: _, None => set_status InvalidDelay a
  | _ :: _, Some delay =>
      if Qltb delay 0 then set_status InvalidDelay a
      else
        mk (message_entry a) (delay_var a) true (queue_paused a)
           (scheduled_messages a) SendingMessages
           (threads a ++ [SendMessages messages delay])
           (session_log a)
  end.

(** [schedule_message], called at time [now]. *)
Definition schedule_message (a : t) (answer : time_answer)
           (now : datetime) : t :=
  let msg := PyStr.strip (entry_get a) in
  if negb (PyStr.nonempty msg) then set_status NoMessageToSchedule a
  else
    match answer with
    | NoAnswer => a
    | Malformed => set_status InvalidTimeFormat a
    | HourMinute h m =>
        match replace_date (strptime_HM h m)
                           (year now) (month now) (day now) with
        | None => set_status InvalidTimeFormat a
        | Some send_time =>
            let normalized :=
              if ltb send_time now
              then replace_day send_time (day now + 1)
              else Some send_time in
            match normalized with
            | None => set_status InvalidTimeFormat a
            | Some send_time' =>
                mk (message_entry a) (delay_var a) (is_sending a)
                   (queue_paused a)
                   (scheduled_messages a ++ [(send_time', msg)])
                   (ScheduledFor send_time')
                   (threads a ++ [WaitAndSend send_time' msg])
                   (session_log a ++ [LogScheduled send_time'])
            end
        end
    end.

(** One turn of the loop of [_wait_and_send], the clock reading
    [now]: [None] while the thread sleeps one more second, otherwise
    the application after the thread has filled the message box and
    called [start_sending]. *)
Definition wait_and_send_poll (a : t) (now : datetime)
           (send_time : datetime) (msg : string) : option t :=
  if ltb now send_time then None
  else Some (start_sending (set_message_entry msg a)).

(** [pause_queue] *)
Definition pause_queue (a : t) : t :=
  mk (message_entry a) (delay_var a) (is_sending a) true
     (scheduled_messages a) QueuePaused (threads a) (session_log a).

(** [resume_queue] *)
Definition resume_queue (a : t) : t :=
  mk (message_entry a) (delay_var a) (is_sending a) false
     (scheduled_messages a) QueueResumed (threads a) (session_log a).

(** [cancel_queue] *)
Definition cancel_queue (a : t) : t :=
  mk (message_entry a) (delay_var a) (is_sending a) (queue_paused a)
     [] QueueCancelled (threads a) (session_log a).


End WorkingCopy.

(** ** How the callers use the rate limiter *)

Module Usage.
Import DiscordRateLimiter.

(** The times at which [ops] registers a send, in the order of the
    calls. *)
Fixpoint sent_times (ops : list op) : list Q :=
  match ops with
  | [] => []
  | RegisterSent now :: rest => now :: sent_times rest
  | _ :: rest => sent_times rest
  end.

(** The successive readings of the clock made by [ops]. *)
Fixpoint times (ops : list op) : list Q :=
  match ops with
  | [] => []
  | CanSend now :: rest => now :: times rest
  | RegisterSent now :: rest => now :: times rest
  | RegisterLimitHit :: rest => times rest
  end.

(** The number of calls of [register_message_sent] in [ops]. *)
Fixpoint count_sent (ops : list op) : nat :=
  match ops with
  | [] => O
  | RegisterSent _ :: rest => S (count_sent rest)
  | _ :: rest => count_sent rest
  end.

(** The number of calls of [register_rate_limit_hit] in [ops]. *)
Fixpoint count_hits (ops : list op) : nat :=
  match ops with
  | [] => O
  | RegisterLimitHit :: rest => S (count_hits rest)
  | _ :: rest => count_hits rest
  end.

(** The discipline of [send_messages]: a send is registered only as
    the call that follows a call of [can_send_message] that answered
    [True].  [allowed] tells whether the previous call was such a
    one. *)
Fixpoint guarded_from (allowed : bool) (s : t) (ops : list op) : Prop :=
  match ops with
  | [] => True
  | CanSend now :: rest =>
      guarded_from (fst (can_send_message s now))
                   (snd (can_send_message s now)) rest
  | RegisterSent now :: rest =>
      allowed = true /\ guarded_from false (register_message_sent s now) rest
  | RegisterLimitHit :: rest =>
      guarded_from false (register_rate_limit_hit s) rest
  end.

Definition guarded (s : t) (ops : list op) : Prop :=
  guarded_from false s ops.

(** [x] is less than ten seconds after [y]. *)
Definition within_window (x y : Q) : bool := Qltb (x - y) 10.

(** [n] hits in a row. *)
Definition hits (n : nat) : list op := repeat RegisterLimitHit n.

(** Sends registered at the times [l]. *)
Definition sends (l : list Q) : list op := map RegisterSent l.

End Usage.

(** ** What a disciplined use of the limiter guarantees *)

Module Pace.
Import DiscordRateLimiter.

(** [x] is at least half a second after [y]. *)
Definition gap (y x : Q) : Prop := y + (1 # 2) <= x.

(** Fewer than five of the sends before any send of [l] are less than
    ten seconds older than it. *)
Definition windowed (l : list Q) : Prop :=
  forall p x q, l = (p ++ x :: q)%list ->
    (List.length (filter (Usage.within_window x) p) < 5)%nat.

(** What the proof of the guarantee carries along: the configuration
    is the default one; the history of the limiter is the end of the
    list [log] of all the sends so far, whose forgotten part is at
    least ten seconds older than [lo], the latest reading of the clock;
    and after an answer [True] the history has room and every send is
    at least half a second old. *)
Definition invariant (allowed : bool) (s : t) (log : list Q) (lo : Q)
  : Prop :=
  burst_threshold s = 5%Z /\ burst_window s = 10 /\ rate_limit s = 1 # 2 /\
  (exists old, log = (old ++ message_history s)%list /\
               Forall (fun y => y + 10 <= lo) old) /\
  Forall (fun y => y <= lo) log /\
  StronglySorted gap log /\ windowed log /\
  (allowed = true ->
   (List.length (message_history s) < 5)%nat /\
   Forall (fun y => y + (1 # 2) <= lo) log).

End Pace.

(** ** The calls [send_messages] makes on the limiter *)

Module QueueUsage.
Import DiscordRateLimiter.
Import DiscordAutoSender.

(** The calls of one turn of the loop: the check, then the send, or
    the hit and the check made by [get_recommended_delay]. *)
Definition turn_calls (a : DiscordAutoSender.t) (tn : turn) : list op :=
  if fst (can_send_message (rate_limiter a) (t_check tn))
  then [CanSend (t_check tn); RegisterSent (t_after tn)]
  else [CanSend (t_check tn); RegisterLimitHit; CanSend (t_after tn)].

(** The calls of the loop, from turn number [i] on. *)
Fixpoint loop_calls (env : nat -> turn) (i : nat)
         (messages : list string) (a : DiscordAutoSender.t) : list op :=
  match messages with
  | [] => []
  | msg :: rest =>
      let a0 := fold_left perform (pressed (env i)) a in
      if negb (is_sending a0) then []
      else (turn_calls a0 (env i)
            ++ loop_calls env (S i) rest (fst (send_one a0 msg (env i))))%list
  end.

(** The clock never goes backwards from one reading to the next. *)
Definition monotone (env : nat -> turn) : Prop :=
  forall i, t_check (env i) <= t_after (env i) /\
            t_after (env i) <= t_check (env (S i)).

(** Two seconds at least pass between the end of a turn and the check
    of the next one. *)
Definition slow (env : nat -> turn) : Prop :=
  forall i, t_check (env i) <= t_after (env i) /\
            t_after (env i) + 2 <= t_check (env (S i)).

(** [x] is at least two seconds after [y]. *)
Definition gap2 (y x : Q) : Prop := y + 2 <= x.

(** What the limiter of a slow run satisfies before each check, [lo]
    being a time the check cannot precede. *)
Definition slow_invariant (s : DiscordRateLimiter.t) (lo : Q) : Prop :=
  burst_threshold s = 5%Z /\ burst_window s = 10 /\ rate_limit s = 1 # 2 /\
  StronglySorted gap2 (message_history s) /\
  Forall (fun y => y + 2 <= lo) (message_history s).

(** A clock that advances by [step] seconds from a turn to the next,
    with no button pressed. *)
Definition ticking (step : Q) : nat -> turn :=
  quiet (paced step).

End QueueUsage.

(** Scenarios of the queue. *)
Module QueueScenarios.
Import DiscordAutoSender.

(** Stop is pressed before the second message. *)
Definition stopped_at_second : nat -> turn :=
  fun i => mk_turn (match i with 1%nat => [Stop] | _ => [] end)
                   (paced 1 i) (paced 1 i).

End QueueScenarios.

(** ** Reading the trace of [send_message_advanced] *)

Module Typing.
Import Transmitter.

(** The events of the loop over the characters: keys other than Enter
    and pauses. *)
Definition is_typing (x : event) : Prop :=
  match x with
  | Key (Write _) | Key Backspace | Sleep _ => True
  | _ => False
  end.

(** The number of times Enter was pressed. *)
Fixpoint enters (tr : list event) : nat :=
  match tr with
  | [] => O
  | Key Enter :: tr' => S (enters tr')
  | _ :: tr' => enters tr'
  end.

(** The number of error dialogs shown. *)
Fixpoint dialogs (tr : list event) : nat :=
  match tr with
  | [] => O
  | ErrorDialog _ :: tr' => S (dialogs tr')
  | _ :: tr' => dialogs tr'
  end.

(** The text in the input box after the keys of [tr] were typed into
    a box holding [text]: a character is appended, Backspace removes
    the last one. *)
Fixpoint typed (tr : list event) (text : list ascii) : list ascii :=
  match tr with
  | [] => text
  | Key (Write c) :: tr' => typed tr' (text ++ [c])
  | Key Backspace :: tr' => typed tr' (removelast text)
  | _ :: tr' => typed tr' text
  end.




End Typing.

(** ** The text box of [main.py] *)

Module MainWindow.

(** [get_messages], [text_area] being the text of the box (the widget
    adds a line feed to what it returns). *)
Definition get_messages (text_area : string) : list string :=
  map PyStr.strip
      (filter (fun line => PyStr.nonempty (PyStr.strip line))
              (PyStr.splitlines (text_area ++ PyStr.newline))).

Inductive status_text : Type :=
| Idle
| UndoPerformed
| NothingToUndo
| RedoPerformed
| NothingToRedo.

(** The attributes [undo] and [redo] use.  The stacks are Python
    lists: [append] adds at the end and [pop] takes from the end. *)
Record t : Type := mk {
  text_area  : string;
  undo_stack : list string;
  redo_stack : list string;
  status_var : status_text
}.

(** The attributes after [__init__] and [build_gui], the box holding
    [text]. *)
Definition init (text : string) : t := mk text [] [] Idle.

(** [self.text_area.get('1.0', tk.END)] *)
Definition area_get (a : t) : string :=
  (text_area a ++ PyStr.newline)%string.

(** [undo] *)
Definition undo (a : t) : t :=
  match undo_stack a with
  | [] => mk (text_area a) (undo_stack a) (redo_stack a) NothingToUndo
  | _ :: _ =>
      mk (last (undo_stack a) EmptyString)
         (removelast (undo_stack a))
         (redo_stack a ++ [area_get a])
         UndoPerformed
  end.

(** [redo] *)
Definition redo (a : t) : t :=
  match redo_stack a with
  | [] => mk (text_area a) (undo_stack a) (redo_stack a) NothingToRedo
  | _ :: _ =>
      mk (last (redo_stack a) EmptyString)
         (undo_stack a ++ [area_get a])
         (removelast (redo_stack a))
         RedoPerformed
  end.

(** The two keys. *)
Inductive key : Type := Undo | Redo.

Definition press (a : t) (k : key) : t :=
  match k with Undo => undo a | Redo => redo a end.

End MainWindow.

(** ** Shapes of strings *)

Module Text.

(** No white space at either end. *)
Definition trimmed (l : list ascii) : Prop :=
  (forall c r, l = c :: r -> PyStr.is_space c = false) /\
  (forall r c, l = (r ++ [c])%list -> PyStr.is_space c = false).

(** No character at which [splitlines] cuts. *)
Definition one_line (l : list ascii) : Prop :=
  Forall (fun c => PyStr.is_line_boundary c = false) l.

(** A message as the queue sends it: not empty, trimmed, on one
    line. *)
Definition clean (m : string) : Prop :=
  PyStr.nonempty m = true /\ PyStr.strip m = m /\
  one_line (list_ascii_of_string m).

End Text.

(** * Properties *)

(** ** Numbers *)

Lemma Qltb_lt (a b : Q) : Qltb a b = true <-> a < b.
Proof.
  unfold Qltb. rewrite negb_true_iff.
  split; intros H.
  - apply Qnot_le_lt. intros Hle. apply Qle_bool_iff in Hle. congruence.
  - destruct (Qle_bool b a) eqn:E; [|reflexivity].
    apply Qle_bool_iff in E. exfalso. exact (Qlt_not_le _ _ H E).
Qed.

Lemma Qltb_ge (a b : Q) : Qltb a b = false <-> b <= a.
Proof.
  unfold Qltb. rewrite negb_false_iff. apply Qle_bool_iff.
Qed.

Lemma py_max_spec (a b : Q) : py_max a b == Qmax a b.
Proof.
  unfold py_max. destruct (Qltb a b) eqn:E.
  - apply Qltb_lt in E. symmetry. apply Q.max_r. now apply Qlt_le_weak.
  - apply Qltb_ge in E. symmetry. now apply Q.max_l.
Qed.

Lemma py_min_spec (a b : Q) : py_min a b == Qmin a b.
Proof.
  unfold py_min. destruct (Qltb b a) eqn:E.
  - apply Qltb_lt in E. symmetry. apply Q.min_r. now apply Qlt_le_weak.
  - apply Qltb_ge in E. symmetry. now apply Q.min_l.
Qed.

Lemma py_max_lower (a b : Q) : a <= py_max a b.
Proof.
  unfold py_max. destruct (Qltb a b) eqn:E.
  - apply Qltb_lt in E. now apply Qlt_le_weak.
  - apply Qle_refl.
Qed.

Lemma py_min_upper (a b : Q) : py_min a b <= a.
Proof.
  unfold py_min. destruct (Qltb b a) eqn:E.
  - apply Qltb_lt in E. now apply Qlt_le_weak.
  - apply Qle_refl.
Qed.

(** ** The rate limiter *)

Section RateLimiterFacts.
Import DiscordRateLimiter.

Lemma nonempty_true {A : Type} (l : list A) : nonempty l = true <-> l <> [].
Proof. destruct l; simpl; split; congruence. Qed.

(** The configuration is never written after [__init__]. *)
Lemma can_send_message_frame (s : t) (now : Q) :
  let s' := snd (can_send_message s now) in
  burst_threshold s' = burst_threshold s /\
  burst_window s' = burst_window s /\
  rate_limit s' = rate_limit s /\
  exponential_delay s' = exponential_delay s /\
  max_delay s' = max_delay s /\
  total_processed s' = total_processed s /\
  rate_limit_hits s' = rate_limit_hits s.
Proof.
  unfold can_send_message; simpl.
  destruct (_ <=? _)%Z; [simpl; tauto|].
  destruct (_ && _); simpl; tauto.
Qed.

Lemma get_recommended_delay_frame (s : t) (now : Q) :
  snd (get_recommended_delay s now) = snd (can_send_message s now).
Proof.
  unfold get_recommended_delay.
  destruct (can_send_message s now) as [ok s1]; now destruct ok.
Qed.

(** C1.  [can_send_message] answers [False] exactly when, after the
    history has been pruned to the entries less than [burst_window]
    old, the pruned history has at least [burst_threshold] entries or
    it is not empty and its last entry is less than [rate_limit] old;
    in every other case it answers [True].  The pruned history is the
    one it leaves in the limiter. *)
Theorem can_send_message_spec (s : t) (now : Q) :
  let pruned :=
    filter (fun x => Qltb (now - x) (burst_window s)) (message_history s) in
  let denied :=
    (burst_threshold s <= Z.of_nat (List.length pruned))%Z \/
    (pruned <> [] /\ now - last pruned 0 < rate_limit s) in
  (fst (can_send_message s now) = false <-> denied) /\
  (fst (can_send_message s now) = true <-> ~ denied) /\
  message_history (snd (can_send_message s now)) = pruned.
Proof.
  intros pruned denied.
  assert (Hiff : fst (can_send_message s now) = false <-> denied).
  { unfold can_send_message, denied; simpl. fold (recent s now).
    change (recent s now) with pruned.
    destruct (burst_threshold s <=? Z.of_nat (List.length pruned))%Z eqn:Eb.
    - simpl. apply Z.leb_le in Eb. tauto.
    - apply Z.leb_gt in Eb.
      destruct (nonempty pruned && _) eqn:En; simpl.
      + apply andb_true_iff in En as [En Hl].
        apply nonempty_true in En. apply Qltb_lt in Hl. tauto.
      + split; [discriminate|]. intros [Hb | [Hne Hl]]; [lia|].
        apply nonempty_true in Hne. apply Qltb_lt in Hl.
        rewrite Hne, Hl in En. discriminate. }
  split; [exact Hiff|]. split.
  - rewrite <- Hiff. destruct (fst (can_send_message s now)); split; congruence.
  - unfold can_send_message; simpl.
    destruct (_ <=? _)%Z; [reflexivity|]. now destruct (_ && _).
Qed.

Lemma bounded_init : bounded init.
Proof. unfold bounded, init; simpl. repeat split; lra. Qed.

Lemma bounded_step (s : t) (o : op) : bounded s -> bounded (step s o).
Proof.
  intros (Hr & Hm & Hlo & Hhi). destruct o as [now | now |]; simpl.
  - destruct (can_send_message_frame s now) as (_ & _ & Er & Ed & Em & _).
    unfold bounded. rewrite Er, Ed, Em. tauto.
  - unfold bounded, register_message_sent; simpl.
    repeat split; try assumption.
    + rewrite Hr. apply py_max_lower.
    + unfold py_max. destruct (Qltb _ _); lra.
  - unfold bounded, register_rate_limit_hit; simpl.
    repeat split; try assumption.
    + unfold py_min. destruct (Qltb _ _); lra.
    + apply py_min_upper.
Qed.

Lemma bounded_run (ops : list op) (s : t) : bounded s -> bounded (run ops s).
Proof.
  revert s. induction ops as [|o ops IH]; intros s Hs; simpl; [exact Hs|].
  apply IH. now apply bounded_step.
Qed.

(** C2.  Whatever calls are made on a fresh limiter, the back-off
    delay stays within [[rate_limit, max_delay]] (0.5 s and 30 s).  A
    hit multiplies it by 2, clamped above by [max_delay], and never
    lowers it; a registered send multiplies it by 0.9, clamped below
    by [rate_limit], and never raises it; a query leaves it as it
    is. *)
Theorem exponential_delay_clamped (ops : list op) (o : op) :
  let s := run ops init in
  let s' := step s o in
  (rate_limit s <= exponential_delay s /\
   exponential_delay s <= max_delay s) /\
  (rate_limit s' <= exponential_delay s' /\
   exponential_delay s' <= max_delay s') /\
  match o with
  | RegisterLimitHit =>
      exponential_delay s' == Qmin (max_delay s) (exponential_delay s * 2) /\
      exponential_delay s <= exponential_delay s'
  | RegisterSent _ =>
      exponential_delay s' ==
        Qmax (rate_limit s) (exponential_delay s * (9 # 10)) /\
      exponential_delay s' <= exponential_delay s
  | CanSend _ => exponential_delay s' = exponential_delay s
  end.
Proof.
  intros s s'.
  assert (Hs : bounded s) by (apply bounded_run, bounded_init).
  assert (Hs' : bounded s') by (now apply bounded_step).
  destruct Hs as (Hr & Hm & Hlo & Hhi).
  destruct Hs' as (_ & _ & Hlo' & Hhi').
  split; [tauto|]. split; [tauto|].
  subst s'. destruct o as [now | now |]; simpl.
  - apply can_send_message_frame.
  - split.
    + rewrite py_max_spec. now rewrite Hr.
    + unfold py_max. destruct (Qltb _ _); lra.
  - split.
    + now rewrite py_min_spec.
    + unfold py_min. destruct (Qltb _ _); lra.
Qed.

(** C9.  [get_queue_status] leaves the two counters as they are, and
    the dictionary it returns shows their values. *)
Theorem get_queue_status_counters (s : t) (t0 t1 t2 : Q) :
  let r := get_queue_status s t0 t1 t2 in
  total_processed (snd r) = total_processed s /\
  rate_limit_hits (snd r) = rate_limit_hits s /\
  st_total_processed (fst r) = total_processed s /\
  st_rate_limit_hits (fst r) = rate_limit_hits s.
Proof.
  unfold get_queue_status.
  pose proof (can_send_message_frame s t1) as F1.
  destruct (can_send_message s t1) as [cs s1]. simpl in F1.
  pose proof (can_send_message_frame s1 t2) as F2.
  rewrite <- get_recommended_delay_frame in F2.
  destruct (get_recommended_delay s1 t2) as [rd s2]. simpl in *.
  destruct F1 as (_ & _ & _ & _ & _ & P1 & H1).
  destruct F2 as (_ & _ & _ & _ & _ & P2 & H2).
  rewrite P2, H2, P1, H1. tauto.
Qed.

(** C10.  In every limiter reached from a fresh one by queries, sends
    and hits, the recommended delay is at least 0.5 s, hence at least
    0.1 s and never zero. *)
Theorem get_recommended_delay_positive (ops : list op) (now : Q) :
  let d := fst (get_recommended_delay (run ops init) now) in
  0 < d /\ 1 # 10 <= d /\ 1 # 2 <= d.
Proof.
  intros d.
  assert (Hd : 1 # 2 <= d).
  { subst d.
    assert (Hs : bounded (run ops init)) by (apply bounded_run, bounded_init).
    set (s := run ops init) in *.
    destruct Hs as (Hr & Hm & Hlo & Hhi).
    destruct (can_send_message_frame s now) as (_ & _ & Er & Ed & _).
    unfold get_recommended_delay.
    destruct (can_send_message s now) as [ok s1]. simpl in Er, Ed.
    destruct ok; simpl.
    - rewrite Er. rewrite <- Hr. apply py_max_lower.
    - rewrite Ed. lra. }
  repeat split; lra.
Qed.

End RateLimiterFacts.

(** ** The queue of [main.py] *)

Section QueueFacts.
Import DiscordAutoSender.

Lemma Subseq_refl {A : Type} (l : list A) : Subseq l l.
Proof. induction l; constructor; assumption. Qed.

Lemma Subseq_nil_l {A : Type} (l : list A) : Subseq [] l.
Proof. induction l; constructor; assumption. Qed.

(** C3, as the specification has it, fails: with the delay of one
    second that [get_delay] returns, the sixth of six messages is
    refused by the limiter (five sends are less than ten seconds
    old); the loop sleeps and ends, and the message is never
    delivered. *)
Lemma denied_message_is_dropped :
  let messages := ["one"; "two"; "three"; "four"; "five"; "six"]%string in
  let r := start_sending (quiet (paced 1)) init messages 1 in
  denied (snd r) = ["six"%string] /\
  delivered (snd r) = ["one"; "two"; "three"; "four"; "five"]%string /\
  ~ In "six"%string (delivered (snd r)) /\
  analytics_errors (fst r) = 1%Z.
Proof.
  vm_compute. repeat split; try reflexivity.
  intros H. repeat (destruct H as [H | H]; [discriminate H|]). exact H.
Qed.

(** One turn of the loop never touches the two flags. *)
Lemma send_one_flags (a : t) (msg : string) (tn : turn) :
  is_sending (fst (send_one a msg tn)) = is_sending a /\
  queue_paused (fst (send_one a msg tn)) = queue_paused a.
Proof.
  unfold send_one.
  destruct (DiscordRateLimiter.can_send_message _ _) as [ok rl1].
  destruct ok; simpl; [tauto|].
  destruct (DiscordRateLimiter.get_recommended_delay _ _); simpl; tauto.
Qed.

(** What one turn does, by the answer of the limiter. *)
Lemma send_one_cases (a : t) (msg : string) (tn : turn) :
  let ok := fst (DiscordRateLimiter.can_send_message
                   (rate_limiter a) (t_check tn)) in
  let rl1 := snd (DiscordRateLimiter.can_send_message
                    (rate_limiter a) (t_check tn)) in
  let r := send_one a msg tn in
  if ok then
    snd r = [Delivered msg] /\
    analytics_sent (fst r) = (analytics_sent a + 1)%Z /\
    analytics_errors (fst r) = analytics_errors a /\
    rate_limiter (fst r) =
      DiscordRateLimiter.register_message_sent rl1 (t_after tn)
  else
    let rl2 := DiscordRateLimiter.register_rate_limit_hit rl1 in
    snd r = [Denied msg;
             Slept (fst (DiscordRateLimiter.get_recommended_delay
                           rl2 (t_after tn)))] /\
    analytics_sent (fst r) = analytics_sent a /\
    analytics_errors (fst r) = (analytics_errors a + 1)%Z /\
    rate_limiter (fst r) =
      snd (DiscordRateLimiter.get_recommended_delay rl2 (t_after tn)).
Proof.
  unfold send_one.
  destruct (DiscordRateLimiter.can_send_message _ _) as [ok rl1]; simpl.
  destruct ok; simpl; [tauto|].
  destruct (DiscordRateLimiter.get_recommended_delay _ _); simpl; tauto.
Qed.

Lemma send_one_trace (a : t) (msg : string) (tn : turn) :
  let r := send_one a msg tn in
  handled (snd r) = [msg] /\
  ((delivered (snd r) = [msg] /\ denied (snd r) = [] /\
    analytics_sent (fst r) = (analytics_sent a + 1)%Z /\
    analytics_errors (fst r) = analytics_errors a) \/
   (delivered (snd r) = [] /\ denied (snd r) = [msg] /\
    analytics_sent (fst r) = analytics_sent a /\
    analytics_errors (fst r) = (analytics_errors a + 1)%Z)).
Proof.
  pose proof (send_one_cases a msg tn) as H. simpl in H.
  destruct (fst (DiscordRateLimiter.can_send_message _ _));
    destruct H as (E & Hs & He & _); simpl; rewrite E; simpl.
  - split; [reflexivity|]. left. tauto.
  - split; [reflexivity|]. right. tauto.
Qed.

Lemma perform_counters (a : t) (acts : list action) :
  analytics_sent (fold_left perform acts a) = analytics_sent a /\
  analytics_errors (fold_left perform acts a) = analytics_errors a /\
  rate_limiter (fold_left perform acts a) = rate_limiter a.
Proof.
  revert a. induction acts as [|x acts IH]; intros a; simpl; [tauto|].
  destruct (IH (perform a x)) as (E1 & E2 & E3).
  rewrite E1, E2, E3. destruct x; simpl; tauto.
Qed.

Lemma handled_app (tr1 tr2 : list event) :
  handled (tr1 ++ tr2) = (handled tr1 ++ handled tr2)%list.
Proof.
  induction tr1 as [|e tr1 IH]; simpl; [reflexivity|].
  destruct e; simpl; now rewrite IH.
Qed.

Lemma delivered_app (tr1 tr2 : list event) :
  delivered (tr1 ++ tr2) = (delivered tr1 ++ delivered tr2)%list.
Proof.
  induction tr1 as [|e tr1 IH]; simpl; [reflexivity|].
  destruct e; simpl; now rewrite IH.
Qed.

Lemma denied_app (tr1 tr2 : list event) :
  denied (tr1 ++ tr2) = (denied tr1 ++ denied tr2)%list.
Proof.
  induction tr1 as [|e tr1 IH]; simpl; [reflexivity|].
  destruct e; simpl; now rewrite IH.
Qed.

(** The loop looks at a prefix of the messages, once each and in
    their order; every message it looks at is either delivered or
    counted as an error. *)
Lemma send_loop_trace (env : nat -> turn) (delay : Q)
      (messages : list string) :
  forall (i : nat) (a : t),
    let r := send_loop env delay i messages a in
    (exists k, handled (snd r) = firstn k messages) /\
    Subseq (delivered (snd r)) messages /\
    Subseq (denied (snd r)) messages /\
    (List.length (delivered (snd r)) + List.length (denied (snd r))
     = List.length (handled (snd r)))%nat /\
    analytics_sent (fst r) =
      (analytics_sent a + Z.of_nat (List.length (delivered (snd r))))%Z /\
    analytics_errors (fst r) =
      (analytics_errors a + Z.of_nat (List.length (denied (snd r))))%Z.
Proof.
  induction messages as [|msg rest IH]; intros i a; simpl.
  - split; [exists 0%nat; reflexivity|].
    repeat split; try constructor; lia.
  - destruct (perform_counters a (pressed (env i))) as (Es & Ee & _).
    set (a0 := fold_left perform (pressed (env i)) a) in *.
    destruct (is_sending a0); simpl.
    + pose proof (send_one_trace a0 msg (env i)) as H1. simpl in H1.
      destruct (send_one a0 msg (env i)) as [a1 evs]. simpl in H1.
      specialize (IH (S i) a1). simpl in IH.
      destruct (send_loop env delay (S i) rest a1) as [a2 tr]. simpl in *.
      destruct IH as ((k & Hk) & Hd & Hn & Hl & Hs & He).
      destruct H1 as (Hh & Hcase).
      rewrite handled_app, delivered_app, denied_app. simpl.
      rewrite Hh. simpl. split; [exists (S k); simpl; now rewrite Hk|].
      destruct Hcase as [(D1 & D2 & S1 & S2) | (D1 & D2 & S1 & S2)];
        rewrite D1, D2; simpl; repeat split;
        try (constructor; assumption); lia.
    + split; [exists 0%nat; reflexivity|].
      repeat split; try apply Subseq_nil_l; lia.
Qed.

Lemma perform_only_pauses (acts : list action) :
  forall a, is_sending (fold_left perform
                          (filter is_pause_or_resume acts) a)
            = is_sending a.
Proof.
  induction acts as [|x acts IH]; intros a; simpl; [reflexivity|].
  destruct x; simpl; try apply IH; now rewrite IH.
Qed.

Lemma send_loop_all_handled (env : nat -> turn) (delay : Q)
      (messages : list string) :
  forall (i : nat) (a : t), is_sending a = true ->
    handled (snd (send_loop (only_pauses env) delay i messages a))
    = messages.
Proof.
  induction messages as [|msg rest IH]; intros i a Ha; simpl;
    [reflexivity|].
  rewrite perform_only_pauses, Ha. simpl.
  set (a0 := fold_left perform _ a).
  assert (Ha0 : is_sending a0 = true)
    by (unfold a0; now rewrite perform_only_pauses).
  pose proof (send_one_trace a0 msg (only_pauses env i)) as H1.
  pose proof (send_one_flags a0 msg (only_pauses env i)) as H2.
  simpl in H1.
  destruct (send_one a0 msg (only_pauses env i)) as [a1 evs].
  simpl in H1, H2. destruct H1 as (Hh & _). destruct H2 as (Hs & _).
  specialize (IH (S i) a1). rewrite Hs in IH. specialize (IH Ha0).
  destruct (send_loop (only_pauses env) delay (S i) rest a1) as [a2 tr].
  simpl in *. rewrite handled_app, Hh. simpl. now rewrite IH.
Qed.

(** Each turn that finds [is_sending] set ends with [sleep(delay)] and
    is followed by the turn of the next message, whatever the limiter
    answered. *)
Lemma send_loop_step (env : nat -> turn) (delay : Q) (i : nat)
      (b : t) (msg : string) (rest : list string) :
  let b0 := fold_left perform (pressed (env i)) b in
  let this := send_one b0 msg (env i) in
  let later := send_loop env delay (S i) rest (fst this) in
  send_loop env delay i (msg :: rest) b =
    if is_sending b0
    then (fst later, (snd this ++ Slept delay :: snd later)%list)
    else (b0, []).
Proof.
  simpl. destruct (is_sending (fold_left perform (pressed (env i)) b));
    simpl; [|reflexivity].
  destruct (send_one _ msg (env i)) as [a1 evs]. simpl.
  now destruct (send_loop env delay (S i) rest a1).
Qed.

(** When [msg] is refused and [is_sending] is still set at the next
    turn, the loop sleeps twice and handles [next]. *)
Lemma send_loop_after_denial (env : nat -> turn) (delay : Q) (i : nat)
      (b : t) (msg next : string) (rest : list string) :
  let b0 := fold_left perform (pressed (env i)) b in
  let rl1 := snd (DiscordRateLimiter.can_send_message
                    (rate_limiter b0) (t_check (env i))) in
  let rl2 := DiscordRateLimiter.register_rate_limit_hit rl1 in
  let b1 := fold_left perform (pressed (env (S i)))
                      (fst (send_one b0 msg (env i))) in
  let after := send_one b1 next (env (S i)) in
  is_sending b0 = true ->
  fst (DiscordRateLimiter.can_send_message
         (rate_limiter b0) (t_check (env i))) = false ->
  is_sending b1 = true ->
  snd (send_loop env delay i (msg :: next :: rest) b) =
    (Denied msg
     :: Slept (fst (DiscordRateLimiter.get_recommended_delay
                      rl2 (t_after (env i))))
     :: Slept delay
     :: snd after
     ++ Slept delay
     :: snd (send_loop env delay (S (S i)) rest (fst after)))%list.
Proof.
  intros b0 rl1 rl2 b1 after Hb0 Hok Hb1.
  pose proof (send_loop_step env delay i b msg (next :: rest)) as E1.
  cbv zeta in E1. fold b0 in E1. rewrite Hb0 in E1. rewrite E1. clear E1.
  pose proof (send_loop_step env delay (S i) (fst (send_one b0 msg (env i)))
                next rest) as E2.
  cbv zeta in E2. fold b1 in E2. rewrite Hb1 in E2. rewrite E2. clear E2.
  pose proof (send_one_cases b0 msg (env i)) as H.
  cbv zeta in H. rewrite Hok in H. destruct H as (Et & _).
  cbn [snd]. rewrite Et. reflexivity.
Qed.

(** C3, amended.  [send_messages] looks at each message once, in the
    order of the list.  When [can_send_message] answers [False] for
    it, the loop counts an error and a rate limit hit, sleeps for the
    recommended delay and goes on to the next message: the refused
    message is neither looked at again nor delivered.  A message is
    delivered only in a turn where [can_send_message] answered
    [True].

    In order: what the whole run handles, delivers and counts; what
    one turn does, by the answer of the limiter; that each turn,
    whatever the answer, ends with [sleep(delay)] and is followed by
    the turn of the next message; what the trace is when [msg] is
    refused and [next] comes after it; and that a run nobody stops or
    cancels looks at every message, refused or not. *)
Theorem send_messages_checks_once (env : nat -> turn) (a : t)
        (messages : list string) (delay : Q) :
  let r := send_messages env a messages delay in
  (exists k, handled (snd r) = firstn k messages) /\
  Subseq (delivered (snd r)) messages /\
  Subseq (denied (snd r)) messages /\
  (List.length (delivered (snd r)) + List.length (denied (snd r))
   = List.length (handled (snd r)))%nat /\
  analytics_sent (fst r) =
    (analytics_sent a + Z.of_nat (List.length (delivered (snd r))))%Z /\
  analytics_errors (fst r) =
    (analytics_errors a + Z.of_nat (List.length (denied (snd r))))%Z /\
  (forall (b : t) (msg : string) (tn : turn),
    let ok := fst (DiscordRateLimiter.can_send_message
                     (rate_limiter b) (t_check tn)) in
    let rl1 := snd (DiscordRateLimiter.can_send_message
                      (rate_limiter b) (t_check tn)) in
    let rl2 := DiscordRateLimiter.register_rate_limit_hit rl1 in
    let r := send_one b msg tn in
    if ok then
      snd r = [Delivered msg] /\
      analytics_sent (fst r) = (analytics_sent b + 1)%Z /\
      analytics_errors (fst r) = analytics_errors b /\
      DiscordRateLimiter.rate_limit_hits (rate_limiter (fst r)) =
        DiscordRateLimiter.rate_limit_hits (rate_limiter b) /\
      DiscordRateLimiter.total_processed (rate_limiter (fst r)) =
        (DiscordRateLimiter.total_processed (rate_limiter b) + 1)%Z
    else
      snd r = [Denied msg;
               Slept (fst (DiscordRateLimiter.get_recommended_delay
                             rl2 (t_after tn)))] /\
      analytics_sent (fst r) = analytics_sent b /\
      analytics_errors (fst r) = (analytics_errors b + 1)%Z /\
      DiscordRateLimiter.rate_limit_hits (rate_limiter (fst r)) =
        (DiscordRateLimiter.rate_limit_hits (rate_limiter b) + 1)%Z /\
      DiscordRateLimiter.total_processed (rate_limiter (fst r)) =
        DiscordRateLimiter.total_processed (rate_limiter b)) /\
  (forall (i : nat) (b : t) (msg : string) (rest : list string),
    let b0 := fold_left perform (pressed (env i)) b in
    let this := send_one b0 msg (env i) in
    let later := send_loop env delay (S i) rest (fst this) in
    send_loop env delay i (msg :: rest) b =
      if is_sending b0
      then (fst later, (snd this ++ Slept delay :: snd later)%list)
      else (b0, [])) /\
  (forall (i : nat) (b : t) (msg next : string) (rest : list string),
    let b0 := fold_left perform (pressed (env i)) b in
    let rl1 := snd (DiscordRateLimiter.can_send_message
                      (rate_limiter b0) (t_check (env i))) in
    let rl2 := DiscordRateLimiter.register_rate_limit_hit rl1 in
    let b1 := fold_left perform (pressed (env (S i)))
                        (fst (send_one b0 msg (env i))) in
    let after := send_one b1 next (env (S i)) in
    is_sending b0 = true ->
    fst (DiscordRateLimiter.can_send_message
           (rate_limiter b0) (t_check (env i))) = false ->
    is_sending b1 = true ->
    snd (send_loop env delay i (msg :: next :: rest) b) =
      (Denied msg
       :: Slept (fst (DiscordRateLimiter.get_recommended_delay
                        rl2 (t_after (env i))))
       :: Slept delay
       :: snd after
       ++ Slept delay
       :: snd (send_loop env delay (S (S i)) rest (fst after)))%list) /\
  (is_sending a = true ->
   let quiet_run := send_messages (only_pauses env) a messages delay in
   handled (snd quiet_run) = messages /\
   (List.length (delivered (snd quiet_run))
    + List.length (denied (snd quiet_run))
    = List.length messages)%nat).
Proof.
  pose proof (send_loop_trace env delay messages 0 a) as H.
  pose proof (send_loop_trace (only_pauses env) delay messages 0 a) as Hq.
  pose proof (send_loop_all_handled env delay messages 0 a) as Hall.
  unfold send_messages. simpl in *.
  destruct (send_loop env delay 0 messages a) as [a1 tr]. simpl in *.
  destruct H as (Hk & Hd & Hn & Hl & Hs & He).
  repeat (split; [assumption|]).
  split; [|split; [|split]].
  - intros b msg tn.
    pose proof (send_one_cases b msg tn) as H. simpl in H.
    destruct (can_send_message_frame (rate_limiter b) (t_check tn))
      as (_ & _ & _ & _ & _ & Ep & Eh).
    destruct (fst (DiscordRateLimiter.can_send_message _ _));
      destruct H as (Et & Es & Ee & Er); rewrite Er;
      (split; [exact Et|]); (split; [exact Es|]); (split; [exact Ee|]).
    + simpl. rewrite Ep, Eh. tauto.
    + rewrite get_recommended_delay_frame.
      destruct (can_send_message_frame
                  (DiscordRateLimiter.register_rate_limit_hit
                     (snd (DiscordRateLimiter.can_send_message
                             (rate_limiter b) (t_check tn))))
                  (t_after tn)) as (_ & _ & _ & _ & _ & Ep' & Eh').
      rewrite Ep', Eh'. simpl. rewrite Ep, Eh. tauto.
  - intros i b msg rest. apply send_loop_step.
  - intros i b msg next rest. apply send_loop_after_denial.
  - intros Ha. specialize (Hall Ha).
    destruct (send_loop (only_pauses env) delay 0 messages a) as [a2 tr2].
    simpl in *. split; [exact Hall|].
    destruct Hq as (_ & _ & _ & Hl' & _). rewrite Hl', Hall. reflexivity.
Qed.

(** C4, as the specification has it, fails: Pause is pressed before
    the first message and Resume never, yet both messages are
    delivered while [queue_paused] is set. *)
Lemma paused_queue_still_delivers :
  let r := start_sending (paused_at_start (paced 1)) init
                         ["one"; "two"]%string 1 in
  delivered (snd r) = ["one"; "two"]%string /\
  queue_paused (fst r) = true /\
  queue_paused (fold_left perform
                  (pressed (paused_at_start (paced 1) 0%nat)) init) = true.
Proof. vm_compute. repeat split; reflexivity. Qed.

Lemma perform_same_queue (acts : list action) :
  forall a b, same_queue a b ->
    same_queue (fold_left perform acts a)
               (fold_left perform
                  (filter (fun x => negb (is_pause_or_resume x)) acts) b).
Proof.
  induction acts as [|x acts IH]; intros a b H; simpl; [exact H|].
  destruct H as (H1 & H2 & H3 & H4).
  destruct x; simpl; apply IH; unfold same_queue; simpl; tauto.
Qed.

Lemma send_one_same_queue (a b : t) (msg : string) (tn1 tn2 : turn) :
  same_queue a b -> t_check tn1 = t_check tn2 -> t_after tn1 = t_after tn2 ->
  snd (send_one a msg tn1) = snd (send_one b msg tn2) /\
  same_queue (fst (send_one a msg tn1)) (fst (send_one b msg tn2)).
Proof.
  intros (H1 & H2 & H3 & H4) Ec Ea. unfold send_one.
  rewrite H4, Ec, Ea.
  destruct (DiscordRateLimiter.can_send_message _ _) as [ok rl1].
  destruct ok; simpl.
  - unfold same_queue; simpl. rewrite H2, H3. tauto.
  - destruct (DiscordRateLimiter.get_recommended_delay _ _); simpl.
    unfold same_queue; simpl. rewrite H2, H3. tauto.
Qed.

Lemma send_loop_same_queue (env : nat -> turn) (delay : Q)
      (messages : list string) :
  forall (i : nat) (a b : t), same_queue a b ->
    snd (send_loop env delay i messages a) =
    snd (send_loop (without_pauses env) delay i messages b) /\
    same_queue (fst (send_loop env delay i messages a))
               (fst (send_loop (without_pauses env) delay i messages b)).
Proof.
  induction messages as [|msg rest IH]; intros i a b H; simpl; [tauto|].
  pose proof (perform_same_queue (pressed (env i)) a b H) as H0.
  set (a0 := fold_left perform (pressed (env i)) a) in *.
  set (b0 := fold_left perform _ b) in *.
  assert (E1 : is_sending a0 = is_sending b0) by apply H0.
  rewrite <- E1. clear E1.
  destruct (is_sending a0) eqn:Es; simpl.
  - rename H0 into Hq.
    destruct (send_one_same_queue a0 b0 msg (env i)
                (without_pauses env i) Hq eq_refl eq_refl) as (Et & Hq1).
    destruct (send_one a0 msg (env i)) as [a1 evs].
    destruct (send_one b0 msg (without_pauses env i)) as [b1 evs'].
    simpl in Et, Hq1. subst evs'.
    destruct (IH (S i) a1 b1 Hq1) as (Et2 & Hq2).
    destruct (send_loop env delay (S i) rest a1) as [a2 tr].
    destruct (send_loop (without_pauses env) delay (S i) rest b1)
      as [b2 tr'].
    simpl in *. subst tr'. tauto.
  - split; [reflexivity|exact H0].
Qed.

(** C4, amended.  [pause_queue] and [resume_queue] only set and
    clear the flag [queue_paused], and [send_messages] never reads
    it.  So a run in which the queue is paused and resumed at any
    moments handles the same messages, with the same outcomes and the
    same pauses, as the run in which it never is: a paused queue
    keeps delivering.  In every run the messages delivered are in
    the order of the list, none twice; and when nobody stops or
    cancels the run, each of the N messages is handled once. *)
Theorem pause_queue_is_not_read (env : nat -> turn) (a : t)
        (paused : bool) (text : status_text)
        (messages : list string) (delay : Q) :
  let b := mk (is_sending a) paused (analytics_sent a)
              (analytics_errors a) (rate_limiter a) text in
  let r := send_messages env a messages delay in
  let r' := send_messages (without_pauses env) b messages delay in
  let running := mk true paused (analytics_sent a)
                    (analytics_errors a) (rate_limiter a) text in
  queue_paused (pause_queue a) = true /\
  queue_paused (resume_queue a) = false /\
  same_queue (pause_queue a) a /\ same_queue (resume_queue a) a /\
  snd r = snd r' /\
  same_queue (fst r) (fst r') /\
  Subseq (delivered (snd r)) messages /\
  handled (snd (send_messages (only_pauses env) running messages delay))
  = messages.
Proof.
  intros b r r' running.
  split; [reflexivity|]. split; [reflexivity|].
  split; [unfold same_queue; simpl; tauto|].
  split; [unfold same_queue; simpl; tauto|].
  assert (Hab : same_queue a b) by (unfold same_queue; simpl; tauto).
  pose proof (send_loop_same_queue env delay messages 0 a b Hab) as H.
  pose proof (send_loop_trace env delay messages 0 a) as Ht.
  pose proof (send_loop_all_handled env delay messages 0 running eq_refl)
    as Hall.
  subst r r'. unfold send_messages. simpl in Ht.
  destruct (send_loop env delay 0 messages a) as [a1 tr].
  destruct (send_loop (without_pauses env) delay 0 messages b) as [b1 tr'].
  destruct (send_loop (only_pauses env) delay 0 messages running)
    as [c1 tr''].
  simpl in *. destruct H as (Et & Hq). destruct Hq as (Q1 & Q2 & Q3 & Q4).
  split; [exact Et|]. split; [unfold same_queue; simpl; tauto|].
  split; [tauto|]. exact Hall.
Qed.

End QueueFacts.

(** ** The retrying transmitter *)

Section TransmitterFacts.
Import Transmitter.

Lemma attempts_app (tr1 tr2 : list event) :
  attempts (tr1 ++ tr2) = (attempts tr1 + attempts tr2)%nat.
Proof.
  induction tr1 as [|x tr1 IH]; simpl; [reflexivity|].
  destruct x; simpl; now rewrite IH.
Qed.

Lemma focus_free_ret {A : Type} (x : A) : focus_free (ret x).
Proof. intros n. reflexivity. Qed.

Lemma focus_free_bind {A B : Type} (m : M A) (f : A -> M B) :
  focus_free m -> (forall x, focus_free (f x)) -> focus_free (bind m f).
Proof.
  intros Hm Hf n. unfold bind. specialize (Hm n).
  destruct (m n) as [ev [[x n']|]]; simpl in *; [|exact Hm].
  specialize (Hf x n'). destruct (f x n') as [ev' r]; simpl in *.
  rewrite attempts_app. lia.
Qed.

Lemma focus_free_sleep (d : Q) : focus_free (sleep d).
Proof. intros n. unfold sleep. now destruct (Qltb d 0). Qed.

Lemma focus_free_press (e : env) (attempt : nat) (k : key) :
  focus_free (press e attempt k).
Proof. intros n. unfold press. now destruct (key_ok e attempt n). Qed.

Lemma focus_free_when (b : bool) (m : M unit) :
  focus_free m -> focus_free (when b m).
Proof. destruct b; simpl; [tauto|]. intros _. apply focus_free_ret. Qed.

Lemma focus_free_type_chars (e : env) (s : settings) (attempt : nat)
      (chars : list ascii) :
  forall j, focus_free (type_chars e s attempt chars j).
Proof.
  induction chars as [|c rest IH]; intros j; simpl.
  - apply focus_free_ret.
  - repeat (apply focus_free_bind; [|intros _]);
      try apply focus_free_when;
      repeat (apply focus_free_bind; [|intros _]);
      try apply focus_free_press; try apply focus_free_sleep;
      try apply IH.
    destruct (get (random_delay s) false); apply focus_free_sleep.
Qed.

Lemma focus_free_transmit (e : env) (s : settings) (attempt : nat)
      (message : string) :
  focus_free (transmit e s attempt message).
Proof.
  unfold transmit. apply focus_free_bind.
  - apply focus_free_type_chars.
  - intros _. apply focus_free_press.
Qed.

(** The loop never begins more attempts than it has left. *)
Lemma attempts_loop_bound (e : env) (s : settings) (message : string)
      (remaining : nat) :
  forall attempt,
    (attempts (snd (attempts_loop e s message remaining attempt))
     <= remaining)%nat.
Proof.
  induction remaining as [|k IH]; intros attempt; simpl; [lia|].
  specialize (IH (S attempt)).
  destruct (focus e attempt); simpl.
  - pose proof (focus_free_transmit e s attempt message 0%nat) as Hq.
    destruct (transmit e s attempt message 0%nat) as [ev [r|]];
      simpl in Hq.
    + simpl. lia.
    + destruct (attempts_loop e s message k (S attempt)) as [r tr].
      simpl in *. rewrite attempts_app. simpl. lia.
  - destruct (attempts_loop e s message k (S attempt)) as [r tr].
    simpl in *. lia.
Qed.

(** When every attempt fails the loop uses all the attempts it has
    left and answers [False]. *)
Lemma attempts_loop_exhausts (e : env) (s : settings) (message : string)
      (Hfail : forall attempt, fails e s message attempt)
      (remaining : nat) :
  forall attempt,
    fst (attempts_loop e s message remaining attempt) = false /\
    attempts (snd (attempts_loop e s message remaining attempt))
    = remaining.
Proof.
  induction remaining as [|k IH]; intros attempt; simpl; [tauto|].
  specialize (IH (S attempt)).
  destruct (focus e attempt) eqn:Ef; simpl.
  - pose proof (focus_free_transmit e s attempt message 0%nat) as Hq.
    destruct (Hfail attempt) as [Hf | Ht]; [congruence|].
    destruct (transmit e s attempt message 0%nat) as [ev [r|]];
      simpl in Hq, Ht; [discriminate|].
    destruct (attempts_loop e s message k (S attempt)) as [r tr].
    simpl in *. rewrite attempts_app. simpl. split; [tauto|]. lia.
  - destruct (attempts_loop e s message k (S attempt)) as [r tr].
    simpl in *. split; [tauto|]. lia.
Qed.

(** A failed focus is followed at once by the next attempt. *)
Lemma focus_failure_no_pause (e : env) (s : settings) (message : string)
      (remaining attempt : nat) :
  focus e attempt = false ->
  snd (attempts_loop e s message (S remaining) attempt) =
  Focus false :: snd (attempts_loop e s message remaining (S attempt)).
Proof.
  intros Hf. simpl. rewrite Hf. simpl.
  now destruct (attempts_loop e s message remaining (S attempt)).
Qed.

(** C7.  When every attempt fails, because the window cannot be
    focused or because a call made while typing raises,
    [send_message_advanced] makes exactly [retry_attempts] attempts
    (3 when the setting is missing) and returns [False]; whatever the
    collaborators do it never makes more attempts than that. *)
Theorem send_message_advanced_exhausts (e : env) (message : string)
        (s : settings) :
  (forall attempt, fails e s message attempt) ->
  let r := send_message_advanced e message s in
  let max_attempts := get (retry_attempts s) 3%Z in
  fst r = false /\
  attempts (snd r) = Z.to_nat max_attempts /\
  (retry_attempts s = None \/ retry_attempts s = Some 3%Z ->
   attempts (snd r) = 3%nat) /\
  forall e',
    (attempts (snd (send_message_advanced e' message s))
     <= Z.to_nat max_attempts)%nat.
Proof.
  intros Hfail r max_attempts.
  destruct (attempts_loop_exhausts e s message Hfail
              (Z.to_nat max_attempts) 1) as (H1 & H2).
  split; [exact H1|]. split; [exact H2|]. split.
  - intros Hd. subst r. unfold send_message_advanced.
    fold max_attempts. rewrite H2. unfold max_attempts.
    destruct Hd as [Hd | Hd]; rewrite Hd; reflexivity.
  - intros e'. apply attempts_loop_bound.
Qed.

Lemma send_message_advanced_exhausts_witness :
  (forall attempt, fails no_window no_settings "hi" attempt) /\
  fst (send_message_advanced no_window "hi" no_settings) = false /\
  attempts (snd (send_message_advanced no_window "hi" no_settings))
  = 3%nat.
Proof.
  assert (Hfail : forall attempt, fails no_window no_settings "hi" attempt)
    by (intros attempt; left; reflexivity).
  split; [exact Hfail|].
  destruct (send_message_advanced_exhausts no_window "hi" no_settings Hfail)
    as (H1 & H2 & _).
  split; [exact H1 | exact H2].
Defined.

(** C8, where the code departs from it.  The window is never found:
    the three calls of [focus_discord_window] follow one another
    with no [sleep] between them (each counts as an attempt).  When
    instead the keyboard raises, every failed attempt is logged and
    followed by [sleep(1)]. *)
Theorem focus_failure_retries_at_once :
  send_message_advanced no_window "hi" no_settings =
    (false, [Focus false; Focus false; Focus false; ErrorDialog 3]) /\
  send_message_advanced no_keyboard "hi" no_settings =
    (false, [Focus true; LogError 1; Sleep 1;
             Focus true; LogError 2; Sleep 1;
             Focus true; LogError 3; Sleep 1; ErrorDialog 3]).
Proof. split; reflexivity. Qed.

End TransmitterFacts.

(** ** The schedulers *)

Section SchedulerFacts.
Import Calendar.

(** The day after is later, whatever the time of the day. *)
Lemma add_one_day_later (d d' now : datetime) :
  add_one_day d = Some d' ->
  year now = year d -> month now = month d -> day now = day d ->
  ltb now d' = true.
Proof.
  unfold add_one_day, ltb, compare, fields. intros H Ey Em Ed.
  destruct (day d <? _)%Z eqn:E1.
  - injection H as <-. simpl. rewrite Ey, Em, Ed, !Z.compare_refl.
    assert (Hlt : (day d ?= day d + 1)%Z = Lt)
      by (apply Z.compare_lt_iff; lia).
    now rewrite Hlt.
  - destruct (month d <? 12)%Z eqn:E2.
    + injection H as <-. simpl. rewrite Ey, Em, Z.compare_refl.
      assert (Hlt : (month d ?= month d + 1)%Z = Lt)
        by (apply Z.compare_lt_iff; lia).
      now rewrite Hlt.
    + destruct (year d <? 9999)%Z eqn:E3; [|discriminate].
      injection H as <-. simpl. rewrite Ey.
      assert (Hlt : (year d ?= year d + 1)%Z = Lt)
        by (apply Z.compare_lt_iff; lia).
      now rewrite Hlt.
Qed.

Lemma add_one_day_time (d d' : datetime) :
  add_one_day d = Some d' -> time_of d' = time_of d.
Proof.
  unfold add_one_day. intros H.
  destruct (day d <? _)%Z; [injection H as <-; reflexivity|].
  destruct (month d <? 12)%Z; [injection H as <-; reflexivity|].
  destruct (year d <? 9999)%Z; [injection H as <-; reflexivity|].
  discriminate.
Qed.

(** [schedule_message_advanced] of the bridge: a time of the day
    that has passed today (or is now) is stored for the same time
    tomorrow, which is strictly later than now. *)
Lemma schedule_message_advanced_future
      (a : Bridge.t) (h m : Z) (now : datetime) :
  let msg := PyStr.strip (Bridge.message_entry a ++ PyStr.newline) in
  let today := combine now (time_of (strptime_HM h m)) in
  PyStr.nonempty msg = true ->
  String.eqb msg Bridge.placeholder = false ->
  (year now < 9999)%Z ->
  leb today now = true ->
  exists send_time,
    Bridge.schedule_message_advanced a (Bridge.HourMinute h m) now =
      Bridge.StoredWithoutTimer send_time
        (Bridge.mk (Bridge.scheduled_messages a ++ [(send_time, msg)])
                   (Bridge.message_entry a) (Bridge.status_var a)) /\
    add_one_day today = Some send_time /\
    time_of send_time = mk_time h m 0 0 /\
    ltb now send_time = true.
Proof.
  intros msg today Hne Hph Hy Hpast.
  unfold Bridge.schedule_message_advanced.
  fold msg. rewrite Hne, Hph. simpl negb. simpl orb. cbv iota.
  fold today. rewrite Hpast.
  destruct (add_one_day today) as [st|] eqn:Ea.
  - exists st. split; [reflexivity|]. split; [reflexivity|]. split.
    + apply add_one_day_time in Ea. rewrite Ea. reflexivity.
    + now apply (add_one_day_later today st now Ea).
  - exfalso. unfold add_one_day in Ea.
    destruct (day today <? _)%Z; [discriminate|].
    destruct (month today <? 12)%Z; [discriminate|].
    destruct (year today <? 9999)%Z eqn:E3; [discriminate|].
    apply Z.ltb_ge in E3. simpl in E3. lia.
Qed.

(** X22.  [schedule_message] of the copy in [Working Versions]: on a
    day that is not the last of its month, a time of the day that has
    passed is stored for the same time on the next day, which is
    strictly later than now. *)
Lemma schedule_message_next_day
      (a : WorkingCopy.t) (h m : Z) (now : datetime) :
  let msg := PyStr.strip (WorkingCopy.entry_get a) in
  let today := mk (year now) (month now) (day now) h m 0 0 in
  let tomorrow := mk (year now) (month now) (day now + 1) h m 0 0 in
  PyStr.nonempty msg = true ->
  valid_date (year now) (month now) (day now) = true ->
  (day now < days_in_month (year now) (month now))%Z ->
  ltb today now = true ->
  WorkingCopy.scheduled_messages
    (WorkingCopy.schedule_message a (WorkingCopy.HourMinute h m) now)
  = (WorkingCopy.scheduled_messages a ++ [(tomorrow, msg)])%list /\
  WorkingCopy.threads
    (WorkingCopy.schedule_message a (WorkingCopy.HourMinute h m) now)
  = (WorkingCopy.threads a ++ [WorkingCopy.WaitAndSend tomorrow msg])%list /\
  ltb now tomorrow = true.
Proof.
  intros msg today tomorrow Hne Hv Hd Hpast.
  assert (Hv' : valid_date (year now) (month now) (day now + 1) = true).
  { unfold valid_date in *.
    rewrite !andb_true_iff in Hv. rewrite !andb_true_iff.
    rewrite !Z.leb_le in *. lia. }
  assert (E : WorkingCopy.schedule_message a (WorkingCopy.HourMinute h m) now
              = WorkingCopy.mk
                  (WorkingCopy.message_entry a) (WorkingCopy.delay_var a)
                  (WorkingCopy.is_sending a) (WorkingCopy.queue_paused a)
                  (WorkingCopy.scheduled_messages a ++ [(tomorrow, msg)])
                  (WorkingCopy.ScheduledFor tomorrow)
                  (WorkingCopy.threads a
                     ++ [WorkingCopy.WaitAndSend tomorrow msg])
                  (WorkingCopy.session_log a
                     ++ [WorkingCopy.LogScheduled tomorrow])).
  { unfold WorkingCopy.schedule_message. fold msg. rewrite Hne. simpl negb.
    cbv iota. unfold replace_date at 1. rewrite Hv.
    change (mk (year now) (month now) (day now)
               (hour (strptime_HM h m)) (minute (strptime_HM h m))
               (second (strptime_HM h m)) (microsecond (strptime_HM h m)))
      with today.
    rewrite Hpast. unfold replace_day, replace_date. simpl. rewrite Hv'.
    reflexivity. }
  rewrite E. simpl. split; [reflexivity|]. split; [reflexivity|].
  unfold ltb, compare, fields. simpl. rewrite !Z.compare_refl.
  assert (Hlt : (day now ?= day now + 1)%Z = Lt)
    by (apply Z.compare_lt_iff; lia).
  now rewrite Hlt.
Qed.

(** X23.  On the last day of a month the same request is refused:
    [replace(day=now.day+1)] raises, nothing is stored and no thread
    is started. *)
Lemma schedule_message_last_day
      (a : WorkingCopy.t) (h m : Z) (now : datetime) :
  let msg := PyStr.strip (WorkingCopy.entry_get a) in
  let today := mk (year now) (month now) (day now) h m 0 0 in
  PyStr.nonempty msg = true ->
  valid_date (year now) (month now) (day now) = true ->
  day now = days_in_month (year now) (month now) ->
  ltb today now = true ->
  WorkingCopy.schedule_message a (WorkingCopy.HourMinute h m) now
  = WorkingCopy.set_status WorkingCopy.InvalidTimeFormat a.
Proof.
  intros msg today Hne Hv Hd Hpast.
  unfold WorkingCopy.schedule_message. fold msg. rewrite Hne. simpl negb.
  cbv iota. unfold replace_date at 1. rewrite Hv.
  change (mk (year now) (month now) (day now)
             (hour (strptime_HM h m)) (minute (strptime_HM h m))
             (second (strptime_HM h m)) (microsecond (strptime_HM h m)))
    with today.
  rewrite Hpast. unfold replace_day, replace_date. simpl.
  assert (Hv' : valid_date (year now) (month now) (day now + 1) = false).
  { unfold valid_date.
    assert (E : (day now + 1 <=? days_in_month (year now) (month now))%Z
                = false) by (apply Z.leb_gt; lia).
    rewrite E. apply andb_false_r. }
  now rewrite Hv'.
Qed.

(** C6, where the copy in [Working Versions] departs from it.  On 31
    January 2025 at noon a message is scheduled for 11:00, which has
    passed: [replace(day=32)] raises, the exception is swallowed as
    "Invalid time format." and nothing is stored and no thread is
    started.  The day before, the same request is stored for 11:00 on
    the next day; and the bridge, which adds a [timedelta], stores 1
    February 11:00 for the request of the 31st. *)
Theorem schedule_message_month_end :
  let a := WorkingCopy.set_message_entry "hello" WorkingCopy.init in
  let ask := WorkingCopy.HourMinute 11 0 in
  let a31 := WorkingCopy.schedule_message a ask (mk 2025 1 31 12 0 0 0) in
  let a30 := WorkingCopy.schedule_message a ask (mk 2025 1 30 12 0 0 0) in
  ltb (mk 2025 1 31 11 0 0 0) (mk 2025 1 31 12 0 0 0) = true /\
  WorkingCopy.scheduled_messages a31 = [] /\
  WorkingCopy.threads a31 = [] /\
  WorkingCopy.status_var a31 = WorkingCopy.InvalidTimeFormat /\
  WorkingCopy.scheduled_messages a30 =
    [(mk 2025 1 31 11 0 0 0, "hello"%string)] /\
  Bridge.schedule_message_advanced
    (Bridge.mk [] "hello" "Idle.") (Bridge.HourMinute 11 0)
    (mk 2025 1 31 12 0 0 0) =
  Bridge.StoredWithoutTimer (mk 2025 2 1 11 0 0 0)
    (Bridge.mk [(mk 2025 2 1 11 0 0 0, "hello"%string)]
               "hello" "Idle.").
Proof. vm_compute. repeat split; reflexivity. Qed.




End SchedulerFacts.

(** ** More on the rate limiter *)

Section LimiterUsageFacts.
Import DiscordRateLimiter.

Lemma filter_filter {A : Type} (f : A -> bool) (l : list A) :
  filter f (filter f l) = filter f l.
Proof.
  induction l as [|x l IH]; simpl; [reflexivity|].
  destruct (f x) eqn:E; simpl; [rewrite E, IH; reflexivity | exact IH].
Qed.

Lemma filter_all {A : Type} (f : A -> bool) (l : list A) :
  Forall (fun x => f x = true) l -> filter f l = l.
Proof.
  induction 1 as [|x l Hx _ IH]; simpl; [reflexivity|].
  now rewrite Hx, IH.
Qed.

Lemma filter_none {A : Type} (f : A -> bool) (l : list A) :
  Forall (fun x => f x = false) l -> filter f l = [].
Proof.
  induction 1 as [|x l Hx _ IH]; simpl; [reflexivity|].
  now rewrite Hx.
Qed.

Lemma filter_length_le {A : Type} (f : A -> bool) (l : list A) :
  (List.length (filter f l) <= List.length l)%nat.
Proof.
  induction l as [|x l IH]; simpl; [lia|].
  destruct (f x); simpl; lia.
Qed.

Lemma can_send_message_twice (s : t) (now : Q) :
  can_send_message (snd (can_send_message s now)) now
  = can_send_message s now.
Proof.
  unfold can_send_message; simpl.
  destruct (burst_threshold s <=? _)%Z eqn:Eb; simpl.
  - unfold recent; simpl. rewrite filter_filter.
    unfold recent in Eb. rewrite Eb. reflexivity.
  - destruct (nonempty _ && _) eqn:En; simpl;
      unfold recent in *; simpl; rewrite filter_filter, Eb, En;
      reflexivity.
Qed.

(** X1.  Asking [can_send_message] a second time at the same instant
    gives the same answer and leaves the limiter as the first call
    left it: the pruning is idempotent. *)
Theorem can_send_message_idempotent (s : t) (now : Q) :
  can_send_message (snd (can_send_message s now)) now
  = can_send_message s now.
Proof. apply can_send_message_twice. Qed.

Lemma run_counters (ops : list op) :
  forall s,
    total_processed (run ops s)
    = (total_processed s + Z.of_nat (Usage.count_sent ops))%Z /\
    rate_limit_hits (run ops s)
    = (rate_limit_hits s + Z.of_nat (Usage.count_hits ops))%Z.
Proof.
  induction ops as [|o ops IH]; intros s; [simpl; lia|].
  change (run (o :: ops) s) with (run ops (step s o)).
  destruct (IH (step s o)) as (E1 & E2).
  rewrite E1, E2. destruct o as [now | now |]; simpl.
  - destruct (can_send_message_frame s now)
      as (_ & _ & _ & _ & _ & P & H). rewrite P, H. lia.
  - lia.
  - lia.
Qed.

(** X2.  The two counters count the calls: after any calls,
    [total_processed] has grown by the number of calls of
    [register_message_sent] and [rate_limit_hits] by the number of
    calls of [register_rate_limit_hit]; neither ever decreases. *)
Theorem counters_count_calls (ops : list op) (s : t) :
  total_processed (run ops s)
  = (total_processed s + Z.of_nat (Usage.count_sent ops))%Z /\
  rate_limit_hits (run ops s)
  = (rate_limit_hits s + Z.of_nat (Usage.count_hits ops))%Z /\
  (total_processed s <= total_processed (run ops s))%Z /\
  (rate_limit_hits s <= rate_limit_hits (run ops s))%Z.
Proof.
  destruct (run_counters ops s) as (E1 & E2). rewrite E1, E2. lia.
Qed.

(** X6.  When the clock reads the same for the whole call,
    [get_queue_status] returns a coherent snapshot: [can_send] is the
    answer of [can_send_message], [recent_messages] is the length of
    the history it leaves, and [recommended_delay] is the back-off
    delay when [can_send] is false and [max(rate_limit, 0.1)] when it
    is true. *)
Theorem get_queue_status_coherent (s : t) (now : Q) :
  let r := get_queue_status s now now now in
  snd r = snd (can_send_message s now) /\
  st_can_send (fst r) = fst (can_send_message s now) /\
  st_recent_messages (fst r) = List.length (message_history (snd r)) /\
  st_recommended_delay (fst r)
  = (if st_can_send (fst r) then py_max (rate_limit s) (1 # 10)
     else exponential_delay s) /\
  st_burst_threshold (fst r) = burst_threshold s /\
  st_exponential_delay (fst r) = exponential_delay s.
Proof.
  unfold get_queue_status, get_recommended_delay.
  pose proof (can_send_message_twice s now) as Hi.
  pose proof (can_send_message_frame s now) as Hf.
  assert (Hh : message_history (snd (can_send_message s now)) = recent s now).
  { unfold can_send_message; simpl.
    destruct (_ <=? _)%Z; [reflexivity|]. now destruct (_ && _). }
  destruct (can_send_message s now) as [cs s1]. simpl in *.
  rewrite Hi. destruct Hf as (Ebt & _ & Er & Ed & _).
  destruct cs; simpl; rewrite Hh, ?Er, ?Ed, ?Ebt; repeat split; reflexivity.
Qed.

Lemma run_app (l1 l2 : list op) (s : t) :
  run (l1 ++ l2) s = run l2 (run l1 s).
Proof. apply fold_left_app. Qed.

Lemma hits_frame (n : nat) (s : t) :
  max_delay (run (Usage.hits n) s) = max_delay s /\
  rate_limit (run (Usage.hits n) s) = rate_limit s.
Proof.
  revert s. induction n as [|n IH]; intros s; simpl; [tauto|].
  destruct (IH (register_rate_limit_hit s)) as (E1 & E2).
  unfold Usage.hits in *. unfold run in *. simpl. rewrite E1, E2. tauto.
Qed.

Lemma hits_closed_form (n : nat) (s : t) :
  0 <= max_delay s -> exponential_delay s <= max_delay s ->
  exponential_delay (run (Usage.hits n) s)
  == Qmin (max_delay s) (exponential_delay s * 2 ^ Z.of_nat n).
Proof.
  intros HM Hd. induction n as [|n IH].
  - simpl. rewrite Q.min_r; lra.
  - unfold Usage.hits. simpl repeat. rewrite repeat_cons, run_app.
    fold (Usage.hits n). simpl.
    destruct (hits_frame n s) as (EM & _). rewrite EM.
    set (dn := exponential_delay (run (Usage.hits n) s)) in *.
    assert (Hp : exponential_delay s * 2 ^ Z.of_nat (S n)
                 == 2 * (exponential_delay s * 2 ^ Z.of_nat n)).
    { rewrite Nat2Z.inj_succ. unfold Z.succ.
      rewrite Qpower_plus by (intros H; discriminate H).
      change (2 ^ 1) with 2. ring. }
    rewrite Hp. set (X := exponential_delay s * 2 ^ Z.of_nat n) in *.
    rewrite py_min_spec.
    destruct (Q.min_spec (max_delay s) X) as [[H1 H2] | [H1 H2]];
      rewrite H2 in IH;
      destruct (Q.min_spec (max_delay s) (dn * 2)) as [[H3 H4] | [H3 H4]];
      rewrite H4;
      destruct (Q.min_spec (max_delay s) (2 * X)) as [[H5 H6] | [H5 H6]];
      rewrite H6; lra.
Qed.

(** X3.  Hits double the back-off delay up to the maximum: after [n]
    hits in a row, in any limiter reached from a fresh one, the delay
    is the smaller of 30 and [2^n] times what it was; six hits in a
    row always bring it to 30 seconds. *)
Theorem hits_double_up_to_max (ops : list op) (n : nat) :
  let s := run ops init in
  exponential_delay (run (Usage.hits n) s)
  == Qmin 30 (exponential_delay s * 2 ^ Z.of_nat n) /\
  exponential_delay (run (Usage.hits (6 + n)) s) == 30.
Proof.
  intros s.
  assert (Hs : bounded s) by (apply bounded_run, bounded_init).
  destruct Hs as (Hr & Hm & Hlo & Hhi).
  assert (H : forall k, exponential_delay (run (Usage.hits k) s)
                        == Qmin 30 (exponential_delay s * 2 ^ Z.of_nat k)).
  { intros k. rewrite hits_closed_form by lra. now rewrite Hm. }
  split; [apply H|].
  rewrite H. apply Q.min_l.
  assert (Hp : 2 ^ 6 <= 2 ^ Z.of_nat (6 + n))
    by (apply Qpower_le_compat_l; [lia | lra]).
  change (2 ^ 6) with 64 in Hp.
  set (p := 2 ^ Z.of_nat (6 + n)) in *. nra.
Qed.

Lemma sends_frame (l : list Q) (s : t) :
  max_delay (run (Usage.sends l) s) = max_delay s /\
  rate_limit (run (Usage.sends l) s) = rate_limit s.
Proof.
  revert s. induction l as [|x l IH]; intros s; simpl; [tauto|].
  destruct (IH (register_message_sent s x)) as (E1 & E2).
  unfold Usage.sends in *. unfold run in *. simpl. rewrite E1, E2. tauto.
Qed.

Lemma decay_at_most_one (k : nat) : 0 < (9 # 10) ^ Z.of_nat k <= 1.
Proof.
  induction k as [|k IH]; [split; [reflexivity | apply Qle_refl]|].
  rewrite Nat2Z.inj_succ. unfold Z.succ.
  rewrite Qpower_plus by (intros H; discriminate H).
  change ((9 # 10) ^ 1) with (9 # 10).
  set (p := (9 # 10) ^ Z.of_nat k) in *. split; lra.
Qed.

(** With exact products; floats round each product, so only the
    bounds drawn from this are stated of the code. *)
Lemma sends_closed_form (l : list Q) (s : t) :
  1 # 2 <= exponential_delay s ->
  exponential_delay (run (Usage.sends l) s)
  == Qmax (1 # 2)
          (exponential_delay s * (9 # 10) ^ Z.of_nat (List.length l)).
Proof.
  intros Hd. induction l as [|x l IH] using rev_ind.
  - simpl. rewrite Q.max_r; lra.
  - unfold Usage.sends. rewrite map_app, run_app. fold (Usage.sends l).
    simpl. rewrite length_app. simpl List.length.
    set (dn := exponential_delay (run (Usage.sends l) s)) in *.
    assert (Hp : exponential_delay s
                 * (9 # 10) ^ Z.of_nat (List.length l + 1)
                 == (9 # 10) * (exponential_delay s
                                * (9 # 10) ^ Z.of_nat (List.length l))).
    { rewrite Nat2Z.inj_add.
      rewrite Qpower_plus by (intros H; discriminate H).
      change ((9 # 10) ^ Z.of_nat 1) with (9 # 10). ring. }
    rewrite Hp.
    set (X := exponential_delay s * (9 # 10) ^ Z.of_nat (List.length l))
      in *.
    rewrite py_max_spec.
    destruct (Q.max_spec (1 # 2) X) as [[H1 H2] | [H1 H2]];
      rewrite H2 in IH;
      destruct (Q.max_spec (1 # 2) (dn * (9 # 10))) as [[H3 H4] | [H3 H4]];
      rewrite H4;
      destruct (Q.max_spec (1 # 2) ((9 # 10) * X)) as [[H5 H6] | [H5 H6]];
      rewrite H6; lra.
Qed.

(** X4.  Registered sends let the back-off delay come down to the
    minimum: after the sends [l], in any limiter reached from a fresh
    one, the delay is at least half a second and at most what it was
    before; 39 sends or more in a row always bring it back to half a
    second. *)
Theorem sends_decay_down_to_min (ops : list op) (l : list Q) :
  let s := run ops init in
  let s' := run (Usage.sends l) s in
  1 # 2 <= exponential_delay s' /\
  exponential_delay s' <= exponential_delay s /\
  ((39 <= List.length l)%nat -> exponential_delay s' == 1 # 2).
Proof.
  intros s s'.
  assert (Hs : bounded s) by (apply bounded_run, bounded_init).
  destruct Hs as (Hr & Hm & Hlo & Hhi).
  assert (H : exponential_delay s'
                == Qmax (1 # 2)
                     (exponential_delay s
                      * (9 # 10) ^ Z.of_nat (List.length l)))
    by (apply sends_closed_form; lra).
  pose proof (decay_at_most_one (List.length l)) as Hone.
  set (d := exponential_delay s) in *.
  split; [rewrite H; apply Q.le_max_l|]. split.
  - rewrite H. apply Q.max_lub; [lra|].
    set (p := (9 # 10) ^ Z.of_nat (List.length l)) in *. nra.
  - intros Hlen. rewrite H. apply Q.max_l.
    replace (List.length l) with (39 + (List.length l - 39))%nat by lia.
    rewrite Nat2Z.inj_add.
    rewrite Qpower_plus by (intros E; discriminate E).
    assert (Hc : (9 # 10) ^ Z.of_nat 39 <= 1 # 60)
      by (apply Qle_bool_iff; vm_compute; reflexivity).
    pose proof (decay_at_most_one 39) as H39.
    pose proof (decay_at_most_one (List.length l - 39)) as Hl.
    set (c := (9 # 10) ^ Z.of_nat 39) in *.
    set (p := (9 # 10) ^ Z.of_nat (List.length l - 39)) in *.
    assert (Hcp : c * p <= 1 # 60) by nra.
    assert (Hcp0 : 0 <= c * p) by nra.
    assert (Hdcp : d * (c * p) <= 30 * (1 # 60)) by nra.
    lra.
Qed.

Lemma sends_decay_down_to_min_witness :
  (39 <= List.length (repeat 0 39))%nat /\
  exponential_delay
    (run (Usage.sends (repeat 0 39)) (run [RegisterLimitHit] init))
  == 1 # 2.
Proof.
  assert (Hlen : (39 <= List.length (repeat 0 39))%nat)
    by (rewrite repeat_length; apply le_n).
  split; [exact Hlen|].
  exact (proj2 (proj2 (sends_decay_down_to_min [RegisterLimitHit]
                         (repeat 0 39)))
               Hlen).
Defined.

End LimiterUsageFacts.

(** ** The pacing the limiter enforces *)

Section PaceFacts.
Import DiscordRateLimiter.
Import Pace.

Lemma gap_sorted_le (l : list Q) :
  StronglySorted gap l -> StronglySorted Qle l.
Proof.
  induction 1 as [|x l _ IH Hx]; constructor; [exact IH|].
  eapply Forall_impl; [|exact Hx]. unfold gap. intros y Hy. lra.
Qed.

Lemma sorted_suffix {A : Type} (R : A -> A -> Prop) (l1 l2 : list A) :
  StronglySorted R (l1 ++ l2) -> StronglySorted R l2.
Proof.
  induction l1 as [|x l1 IH]; simpl; [tauto|].
  intros H. apply StronglySorted_inv in H. tauto.
Qed.

Lemma sorted_snoc {A : Type} (R : A -> A -> Prop) (l : list A) (x : A) :
  StronglySorted R l -> Forall (fun y => R y x) l ->
  StronglySorted R (l ++ [x]).
Proof.
  induction 1 as [|y l Hl IH Hy]; intros Hx; simpl.
  - repeat constructor.
  - apply Forall_cons_iff in Hx as [Hyx Hx]. constructor.
    + now apply IH.
    + apply Forall_app. split; [exact Hy | now constructor].
Qed.

Lemma sorted_le_last (l : list Q) (d : Q) :
  StronglySorted Qle l -> Forall (fun y => y <= last l d) l.
Proof.
  induction 1 as [|x l Hl IH Hx]; [constructor|].
  destruct l as [|z l'].
  - constructor; [apply Qle_refl | constructor].
  - change (last (x :: z :: l') d) with (last (z :: l') d).
    constructor; [|exact IH].
    apply Forall_cons_iff in Hx as [Hxz _].
    apply Forall_cons_iff in IH as [Hz _]. lra.
Qed.

(** Pruning a sorted history forgets its beginning: what it forgets
    is at least the window older than now. *)
Lemma prune_sorted (w now : Q) (l : list Q) :
  StronglySorted Qle l ->
  exists pre,
    l = (pre ++ filter (fun x => Qltb (now - x) w) l)%list /\
    Forall (fun y => y + w <= now) pre.
Proof.
  induction 1 as [|h l Hl IH Hh].
  - exists []. split; [reflexivity | constructor].
  - simpl. destruct (Qltb (now - h) w) eqn:E.
    + exists []. split; [|constructor]. simpl. f_equal. symmetry.
      apply filter_all. eapply Forall_impl; [|exact Hh].
      intros z Hz. apply Qltb_lt. apply Qltb_lt in E. lra.
    + destruct IH as (pre & E1 & E2). exists (h :: pre). split.
      * simpl. now f_equal.
      * constructor; [|exact E2]. apply Qltb_ge in E. lra.
Qed.

Lemma windowed_snoc (l : list Q) (x : Q) :
  windowed l ->
  (List.length (filter (Usage.within_window x) l) < 5)%nat ->
  windowed (l ++ [x]).
Proof.
  intros Hl Hx p y q E.
  destruct q as [|z q] using rev_ind.
  - apply app_inj_tail in E as [-> ->]. exact Hx.
  - clear IHq. change (p ++ y :: q ++ [z])%list
      with (p ++ (y :: q) ++ [z])%list in E.
    rewrite app_assoc in E. apply app_inj_tail in E as [E _].
    now apply (Hl p y q).
Qed.

Lemma can_send_message_history (s : t) (now : Q) :
  message_history (snd (can_send_message s now)) = recent s now.
Proof.
  unfold can_send_message; simpl.
  destruct (_ <=? _)%Z; [reflexivity|]. now destruct (_ && _).
Qed.

(** What an answer [True] tells. *)
Lemma can_send_message_true (s : t) (now : Q) :
  fst (can_send_message s now) = true ->
  (Z.of_nat (List.length (recent s now)) < burst_threshold s)%Z /\
  (recent s now = [] \/ rate_limit s <= now - last (recent s now) 0).
Proof.
  unfold can_send_message; simpl.
  destruct (_ <=? _)%Z eqn:Eb; simpl; [discriminate|].
  apply Z.leb_gt in Eb. intros H. split; [exact Eb|].
  destruct (recent s now) as [|h r] eqn:Er; [now left|]. right.
  simpl nonempty in H. simpl andb in H.
  destruct (Qltb _ _) eqn:El; [discriminate|].
  now apply Qltb_ge in El.
Qed.

Lemma invariant_can_send (allowed : bool) (s : t) (log : list Q)
      (lo now : Q) :
  invariant allowed s log lo -> lo <= now ->
  invariant (fst (can_send_message s now)) (snd (can_send_message s now))
            log now.
Proof.
  intros (Hbt & Hbw & Hrl & (old & Elog & Hold) & Hle & Hs & Hw & _) Hlo.
  destruct (can_send_message_frame s now) as (Fbt & Fbw & Frl & _).
  pose proof (can_send_message_history s now) as Hh.
  pose proof (can_send_message_true s now) as Ht.
  assert (Hsh : StronglySorted Qle (message_history s)).
  { apply gap_sorted_le. apply (sorted_suffix gap old). now rewrite <- Elog. }
  destruct (prune_sorted (burst_window s) now (message_history s) Hsh)
    as (pre & Epre & Hpre).
  fold (recent s now) in Epre. rewrite Hbw in Hpre.
  assert (Hold' : Forall (fun y => y + 10 <= now) (old ++ pre)).
  { apply Forall_app. split; [|exact Hpre].
    eapply Forall_impl; [|exact Hold]. intros y Hy. simpl in Hy. lra. }
  assert (Elog' : log = ((old ++ pre) ++ recent s now)%list).
  { rewrite <- app_assoc, <- Epre. exact Elog. }
  unfold invariant. rewrite Fbt, Fbw, Frl, Hh.
  split; [exact Hbt|]. split; [exact Hbw|]. split; [exact Hrl|].
  split; [exists (old ++ pre)%list; split; assumption|].
  split; [eapply Forall_impl; [|exact Hle]; intros y Hy; simpl in Hy; lra|].
  split; [exact Hs|]. split; [exact Hw|].
  intros Ha. destruct (Ht Ha) as (Hlen & Hlast). split.
  - rewrite Hbt in Hlen. lia.
  - rewrite Elog'. apply Forall_app. split.
    + eapply Forall_impl; [|exact Hold']. intros y Hy. simpl in Hy. lra.
    + destruct Hlast as [-> | Hlast]; [constructor|].
      assert (Hsr : StronglySorted Qle (recent s now)).
      { apply gap_sorted_le. apply (sorted_suffix gap (old ++ pre)).
        now rewrite <- Elog'. }
      pose proof (sorted_le_last (recent s now) 0 Hsr) as Hall.
      rewrite Hrl in Hlast.
      eapply Forall_impl; [|exact Hall]. intros y Hy. simpl in Hy. lra.
Qed.

Lemma invariant_register_sent (s : t) (log : list Q) (lo now : Q) :
  invariant true s log lo -> lo <= now ->
  invariant false (register_message_sent s now) (log ++ [now]) now.
Proof.
  intros (Hbt & Hbw & Hrl & (old & Elog & Hold) & Hle & Hs & Hw & Ha) Hlo.
  destruct (Ha eq_refl) as (Hlen & Hgap).
  unfold invariant, register_message_sent; simpl.
  split; [exact Hbt|]. split; [exact Hbw|]. split; [exact Hrl|].
  split; [|split; [|split; [|split]]].
  - exists old. split; [rewrite Elog; symmetry; apply app_assoc|].
    eapply Forall_impl; [|exact Hold]. intros y Hy. simpl in Hy. lra.
  - apply Forall_app. split.
    + eapply Forall_impl; [|exact Hle]. intros y Hy. simpl in Hy. lra.
    + constructor; [apply Qle_refl | constructor].
  - apply sorted_snoc; [exact Hs|].
    eapply Forall_impl; [|exact Hgap]. unfold gap. intros y Hy. lra.
  - apply windowed_snoc; [exact Hw|].
    rewrite Elog, filter_app.
    rewrite (filter_none (Usage.within_window now) old).
    + simpl. pose proof (filter_length_le (Usage.within_window now)
                                           (message_history s)). lia.
    + eapply Forall_impl; [|exact Hold]. intros y Hy. simpl in Hy.
      unfold Usage.within_window. apply Qltb_ge. lra.
  - discriminate.
Qed.

Lemma invariant_hit (allowed : bool) (s : t) (log : list Q) (lo : Q) :
  invariant allowed s log lo ->
  invariant false (register_rate_limit_hit s) log lo.
Proof.
  intros (Hbt & Hbw & Hrl & Hold & Hle & Hs & Hw & _).
  unfold invariant, register_rate_limit_hit; simpl.
  repeat (split; [assumption|]). discriminate.
Qed.

Lemma guarded_paced (ops : list op) :
  forall (allowed : bool) (s : t) (log : list Q) (lo : Q),
    invariant allowed s log lo ->
    Forall (Qle lo) (Usage.times ops) ->
    StronglySorted Qle (Usage.times ops) ->
    Usage.guarded_from allowed s ops ->
    StronglySorted gap (log ++ Usage.sent_times ops) /\
    windowed (log ++ Usage.sent_times ops).
Proof.
  induction ops as [|o ops IH]; intros allowed s log lo Hinv Hlo Hsorted Hg.
  - simpl. rewrite app_nil_r.
    destruct Hinv as (_ & _ & _ & _ & _ & Hs & Hw & _). tauto.
  - destruct o as [now | now |]; simpl in *.
    + apply Forall_cons_iff in Hlo as [Hnow _].
      apply StronglySorted_inv in Hsorted as [Hsorted Hrest].
      apply (IH (fst (can_send_message s now))
                (snd (can_send_message s now)) log now);
        try assumption.
      now apply (invariant_can_send allowed s log lo).
    + apply Forall_cons_iff in Hlo as [Hnow _].
      apply StronglySorted_inv in Hsorted as [Hsorted Hrest].
      destruct Hg as [-> Hg].
      change (log ++ now :: Usage.sent_times ops)%list
        with (log ++ [now] ++ Usage.sent_times ops)%list.
      rewrite app_assoc.
      apply (IH false (register_message_sent s now) _ now);
        try assumption.
      now apply invariant_register_sent with (lo := lo).
    + apply (IH false (register_rate_limit_hit s) log lo); try assumption.
      now apply invariant_hit with (allowed := allowed).
Qed.

Lemma invariant_init (lo : Q) : invariant false init [] lo.
Proof.
  unfold invariant; simpl.
  repeat (split; [reflexivity|]).
  split; [exists []; split; [reflexivity | constructor]|].
  split; [constructor|]. split; [constructor|].
  split; [|discriminate].
  intros p x q E. destruct p; discriminate E.
Qed.

(** X5.  The pacing the limiter enforces.  Take any calls on a fresh
    limiter in which the clock never goes backwards and a send is
    registered only right after [can_send_message] answered [True] (as
    [send_messages] does).  Then every registered send is at least
    half a second after every earlier one, and fewer than five of the
    sends before it are less than ten seconds older: at most five
    sends in any ten seconds. *)
Theorem guarded_sends_are_paced (ops : list op) :
  StronglySorted Qle (Usage.times ops) ->
  Usage.guarded init ops ->
  StronglySorted (fun y x => y + (1 # 2) <= x) (Usage.sent_times ops) /\
  forall p x q, Usage.sent_times ops = (p ++ x :: q)%list ->
    (List.length (filter (fun y => Qltb (x - y) 10) p) < 5)%nat.
Proof.
  intros Hsorted Hg.
  set (lo := hd 0 (Usage.times ops)).
  assert (Hlo : Forall (Qle lo) (Usage.times ops)).
  { subst lo. destruct (Usage.times ops) as [|x l]; [constructor|].
    simpl. apply StronglySorted_inv in Hsorted as [_ Hx].
    constructor; [apply Qle_refl | exact Hx]. }
  exact (guarded_paced ops false init [] lo (invariant_init lo)
                       Hlo Hsorted Hg).
Qed.

Lemma guarded_sends_are_paced_witness :
  let ops := [CanSend 0; RegisterSent 0; CanSend (1 # 4);
              RegisterLimitHit; CanSend 1; RegisterSent 1] in
  StronglySorted Qle (Usage.times ops) /\
  Usage.guarded init ops /\
  StronglySorted (fun y x => y + (1 # 2) <= x) (Usage.sent_times ops).
Proof.
  intros ops.
  assert (Hs : StronglySorted Qle (Usage.times ops)).
  { subst ops. simpl.
    repeat (constructor; [|repeat constructor; apply Qle_bool_iff;
                           reflexivity]).
    constructor. }
  assert (Hg : Usage.guarded init ops).
  { subst ops. unfold Usage.guarded. simpl. repeat split; reflexivity. }
  split; [exact Hs|]. split; [exact Hg|].
  exact (proj1 (guarded_sends_are_paced ops Hs Hg)).
Defined.

End PaceFacts.

(** ** More on the queue of [main.py] *)

Section QueueUsageFacts.
Import DiscordRateLimiter.
Import DiscordAutoSender.
Import QueueUsage.

Lemma perform_stays_idle (acts : list action) :
  forall a, is_sending a = false ->
            is_sending (fold_left perform acts a) = false.
Proof.
  induction acts as [|x acts IH]; intros a Ha; simpl; [exact Ha|].
  apply IH. destruct x; simpl; try exact Ha; reflexivity.
Qed.

(** Whatever was pressed before, a last press of Stop or Cancel leaves
    [is_sending] false. *)
Lemma perform_last_stop (acts : list action) (x : action) (a : t) :
  x = Stop \/ x = Cancel ->
  is_sending (fold_left perform (acts ++ [x]) a) = false.
Proof.
  intros Hx. rewrite fold_left_app. simpl.
  destruct Hx as [-> | ->]; reflexivity.
Qed.

(** X7.  A call of [send_messages] while [is_sending] is false, which
    is what the timers of [schedule_message] and
    [schedule_message_advanced] make when no run is in progress,
    handles no message: nothing is delivered or refused, no pause is
    made, and the counters and the limiter are left as they were. *)
Theorem send_messages_when_idle (env : nat -> turn) (a : t)
        (messages : list string) (delay : Q) :
  is_sending a = false ->
  let r := send_messages env a messages delay in
  snd r = [] /\
  analytics_sent (fst r) = analytics_sent a /\
  analytics_errors (fst r) = analytics_errors a /\
  rate_limiter (fst r) = rate_limiter a /\
  is_sending (fst r) = false.
Proof.
  intros Ha. unfold send_messages.
  destruct messages as [|msg rest]; simpl; [tauto|].
  rewrite (perform_stays_idle (pressed (env 0%nat)) a Ha). simpl.
  destruct (perform_counters a (pressed (env 0%nat))) as (E1 & E2 & E3).
  tauto.
Qed.

Lemma send_messages_when_idle_witness :
  is_sending init = false /\
  snd (send_messages (quiet (paced 1)) init ["hello"%string] 0) = [].
Proof.
  split; [reflexivity|].
  exact (proj1 (send_messages_when_idle (quiet (paced 1)) init
                  ["hello"%string] 0 eq_refl)).
Defined.

(** The loop ends at the first check that finds [is_sending] false. *)
Lemma send_loop_stopped (env : nat -> turn) (delay : Q)
      (messages : list string) (i : nat) :
  (forall b, is_sending (fold_left perform (pressed (env i)) b) = false) ->
  forall (j : nat) (a : t), (j <= i)%nat ->
    exists k, (k <= i - j)%nat /\
              handled (snd (send_loop env delay j messages a))
              = firstn k messages.
Proof.
  intros Hstop.
  induction messages as [|msg rest IH]; intros j a Hj; simpl.
  - exists 0%nat. split; [lia | reflexivity].
  - set (a0 := fold_left perform (pressed (env j)) a).
    destruct (Nat.eq_dec j i) as [-> | Hne].
    + unfold a0. rewrite (Hstop a). simpl.
      exists 0%nat. split; [lia | reflexivity].
    + destruct (is_sending a0); simpl.
      * pose proof (send_one_trace a0 msg (env j)) as H1. simpl in H1.
        destruct (send_one a0 msg (env j)) as [a1 evs]. simpl in H1.
        destruct (IH (S j) a1) as (k & Hk & Ek); [lia|].
        destruct (send_loop env delay (S j) rest a1) as [a2 tr].
        simpl in *. destruct H1 as (Hh & _).
        rewrite handled_app, Hh. simpl. rewrite Ek.
        exists (S k). split; [lia | reflexivity].
      * exists 0%nat. split; [lia | reflexivity].
Qed.

(** X8.  Stop and Cancel end the run at the next check of the loop,
    unless the flag is set again before it.  When the last button
    pressed before the check of turn [i] is Stop or Cancel, the check
    finds [is_sending] false whatever was pressed before and whatever
    the loop did until then; the loop handles at most the first [i]
    messages and none after them, and [is_sending] is false at the
    end. *)
Theorem stop_ends_the_run (env : nat -> turn) (a : t)
        (messages : list string) (delay : Q) (i : nat)
        (before : list action) (x : action) :
  pressed (env i) = (before ++ [x])%list ->
  x = Stop \/ x = Cancel ->
  let r := send_messages env a messages delay in
  (forall b, is_sending (fold_left perform (pressed (env i)) b) = false) /\
  (exists k, (k <= i)%nat /\ handled (snd r) = firstn k messages) /\
  is_sending (fst r) = false.
Proof.
  intros Hlast Hx r.
  assert (Hstop : forall b,
             is_sending (fold_left perform (pressed (env i)) b) = false)
    by (intros b; rewrite Hlast; now apply perform_last_stop).
  split; [exact Hstop|].
  destruct (send_loop_stopped env delay messages i Hstop 0%nat a)
    as (k & Hk & Ek); [lia|].
  subst r. unfold send_messages.
  destruct (send_loop env delay 0 messages a) as [a1 tr]. simpl in *.
  split; [|reflexivity]. exists k. split; [lia | exact Ek].
Qed.

Lemma stop_ends_the_run_witness :
  pressed (QueueScenarios.stopped_at_second 1%nat) = ([] ++ [Stop])%list /\
  (Stop = Stop \/ Stop = Cancel) /\
  exists k, (k <= 1)%nat /\
    handled (snd (start_sending QueueScenarios.stopped_at_second init
                    ["one"; "two"; "three"]%string 1))
    = firstn k ["one"; "two"; "three"]%string.
Proof.
  split; [reflexivity|]. split; [left; reflexivity|].
  exact (proj1 (proj2 (stop_ends_the_run QueueScenarios.stopped_at_second
                  (mk true false 0 0 DiscordRateLimiter.init StartedSending)
                  ["one"; "two"; "three"]%string 1 1%nat [] Stop
                  eq_refl (or_introl eq_refl)))).
Defined.

Lemma send_one_limiter (a : t) (msg : string) (tn : turn) :
  rate_limiter (fst (send_one a msg tn))
  = run (turn_calls a tn) (rate_limiter a).
Proof.
  pose proof (send_one_cases a msg tn) as H. simpl in H.
  unfold turn_calls.
  destruct (fst (can_send_message (rate_limiter a) (t_check tn)));
    destruct H as (_ & _ & _ & Er); rewrite Er; [reflexivity|].
  now rewrite get_recommended_delay_frame.
Qed.

Lemma send_one_sent (a : t) (msg : string) (tn : turn) :
  List.length (Usage.sent_times (turn_calls a tn))
  = List.length (delivered (snd (send_one a msg tn))) /\
  Usage.count_hits (turn_calls a tn)
  = List.length (denied (snd (send_one a msg tn))).
Proof.
  pose proof (send_one_cases a msg tn) as H. simpl in H.
  unfold turn_calls.
  destruct (fst (can_send_message (rate_limiter a) (t_check tn)));
    destruct H as (Et & _); rewrite Et; split; reflexivity.
Qed.

Lemma sent_times_app (l1 l2 : list op) :
  Usage.sent_times (l1 ++ l2)
  = (Usage.sent_times l1 ++ Usage.sent_times l2)%list.
Proof.
  induction l1 as [|o l1 IH]; simpl; [reflexivity|].
  destruct o; simpl; now rewrite IH.
Qed.

Lemma count_hits_app (l1 l2 : list op) :
  Usage.count_hits (l1 ++ l2)
  = (Usage.count_hits l1 + Usage.count_hits l2)%nat.
Proof.
  induction l1 as [|o l1 IH]; simpl; [reflexivity|].
  destruct o; simpl; now rewrite IH.
Qed.

Lemma count_sent_length (l : list op) :
  Usage.count_sent l = List.length (Usage.sent_times l).
Proof.
  induction l as [|o l IH]; simpl; [reflexivity|].
  destruct o; simpl; now rewrite IH.
Qed.

(** The limiter after the loop is the limiter after the calls of the
    loop, which register one send for each message delivered and one
    hit for each message refused. *)
Lemma send_loop_limiter (env : nat -> turn) (delay : Q)
      (messages : list string) :
  forall (i : nat) (a : t),
    rate_limiter (fst (send_loop env delay i messages a))
    = run (loop_calls env i messages a) (rate_limiter a) /\
    List.length (Usage.sent_times (loop_calls env i messages a))
    = List.length (delivered (snd (send_loop env delay i messages a))) /\
    Usage.count_hits (loop_calls env i messages a)
    = List.length (denied (snd (send_loop env delay i messages a))).
Proof.
  induction messages as [|msg rest IH]; intros i a; simpl; [tauto|].
  destruct (perform_counters a (pressed (env i))) as (_ & _ & Erl).
  set (a0 := fold_left perform (pressed (env i)) a) in *.
  destruct (is_sending a0); simpl; [|rewrite Erl; tauto].
  pose proof (send_one_limiter a0 msg (env i)) as H1.
  pose proof (send_one_sent a0 msg (env i)) as (H2 & H3).
  specialize (IH (S i) (fst (send_one a0 msg (env i)))).
  destruct (send_one a0 msg (env i)) as [a1 evs]. simpl in *.
  destruct (send_loop env delay (S i) rest a1) as [a2 tr]. simpl in *.
  destruct IH as (E1 & E2 & E3).
  rewrite run_app, sent_times_app, count_hits_app, !length_app.
  rewrite delivered_app, denied_app, !length_app. simpl.
  rewrite E1, H1, Erl, E2, E3, H2, H3. repeat split; reflexivity.
Qed.

Lemma turn_calls_times (a : t) (tn : turn) :
  Usage.times (turn_calls a tn) = [t_check tn; t_after tn].
Proof. unfold turn_calls. now destruct (fst _). Qed.

Lemma times_app (l1 l2 : list op) :
  Usage.times (l1 ++ l2) = (Usage.times l1 ++ Usage.times l2)%list.
Proof.
  induction l1 as [|o l1 IH]; simpl; [reflexivity|].
  destruct o; simpl; now rewrite IH.
Qed.

Lemma loop_calls_times (env : nat -> turn) (messages : list string) :
  monotone env ->
  forall (i : nat) (a : t),
    StronglySorted Qle (Usage.times (loop_calls env i messages a)) /\
    Forall (Qle (t_check (env i)))
           (Usage.times (loop_calls env i messages a)).
Proof.
  intros Hm.
  induction messages as [|msg rest IH]; intros i a; simpl.
  - split; constructor.
  - set (a0 := fold_left perform (pressed (env i)) a).
    destruct (is_sending a0); simpl; [|split; constructor].
    rewrite times_app, turn_calls_times. simpl.
    destruct (IH (S i) (fst (send_one a0 msg (env i)))) as (Hs & Hf).
    destruct (Hm i) as (H1 & H2).
    set (l := Usage.times (loop_calls env (S i) rest _)) in *.
    assert (Hfa : Forall (Qle (t_after (env i))) l)
      by (eapply Forall_impl; [|exact Hf]; intros y Hy; simpl in Hy; lra).
    assert (Hfc : Forall (Qle (t_check (env i))) l)
      by (eapply Forall_impl; [|exact Hf]; intros y Hy; simpl in Hy; lra).
    split.
    + constructor; [constructor; assumption|].
      constructor; assumption.
    + constructor; [apply Qle_refl|]. constructor; assumption.
Qed.

Lemma loop_calls_guarded (env : nat -> turn) (messages : list string) :
  forall (i : nat) (a : t) (allowed : bool),
    Usage.guarded_from allowed (rate_limiter a)
                       (loop_calls env i messages a).
Proof.
  induction messages as [|msg rest IH]; intros i a allowed; simpl;
    [exact I|].
  destruct (perform_counters a (pressed (env i))) as (_ & _ & Erl).
  set (a0 := fold_left perform (pressed (env i)) a) in *.
  destruct (is_sending a0); simpl; [|exact I].
  pose proof (send_one_limiter a0 msg (env i)) as H1.
  specialize (IH (S i) (fst (send_one a0 msg (env i)))).
  rewrite H1 in IH. rewrite <- Erl. unfold turn_calls in *.
  destruct (fst (can_send_message (rate_limiter a0) (t_check (env i))))
    eqn:E; simpl in *.
  - rewrite E. split; [reflexivity|]. apply IH.
  - apply IH.
Qed.

(** X9.  [send_messages] is paced.  With a limiter fresh at the start
    and a clock that never goes backwards, whatever the messages and
    the buttons pressed, the limiter registers one send for each
    message delivered; each of these sends is at least half a second
    after every earlier one, and fewer than five of the sends before
    it are less than ten seconds older. *)
Theorem send_messages_is_paced (env : nat -> turn) (a : t)
        (messages : list string) (delay : Q) :
  rate_limiter a = DiscordRateLimiter.init -> monotone env ->
  let r := send_messages env a messages delay in
  let calls := loop_calls env 0 messages a in
  rate_limiter (fst r) = run calls DiscordRateLimiter.init /\
  List.length (Usage.sent_times calls) = List.length (delivered (snd r)) /\
  StronglySorted (fun y x => y + (1 # 2) <= x) (Usage.sent_times calls) /\
  forall p x q, Usage.sent_times calls = (p ++ x :: q)%list ->
    (List.length (filter (fun y => Qltb (x - y) 10) p) < 5)%nat.
Proof.
  intros Hinit Hm r calls.
  destruct (send_loop_limiter env delay messages 0%nat a) as (E1 & E2 & _).
  destruct (loop_calls_times env messages Hm 0%nat a) as (Hs & Hf).
  pose proof (loop_calls_guarded env messages 0%nat a false) as Hg.
  rewrite Hinit in *. fold calls in E1, E2, Hs, Hf, Hg.
  subst r. unfold send_messages.
  destruct (send_loop env delay 0 messages a) as [a1 tr]. simpl in *.
  split; [exact E1|]. split; [exact E2|].
  exact (guarded_paced calls false DiscordRateLimiter.init []
           (t_check (env 0%nat))
           (invariant_init (t_check (env 0%nat))) Hf Hs Hg).
Qed.

Lemma paced_succ (step : Q) (i : nat) :
  paced step (S i) == paced step i + step.
Proof.
  unfold paced. rewrite Nat2Z.inj_succ. unfold Z.succ.
  rewrite inject_Z_plus. change (inject_Z 1) with 1. ring.
Qed.

Lemma ticking_monotone (step : Q) : 0 <= step -> monotone (ticking step).
Proof.
  intros Hs i. unfold ticking, quiet. simpl. rewrite paced_succ.
  split; lra.
Qed.

Lemma send_messages_is_paced_witness :
  let messages := ["one"; "two"; "three"]%string in
  let calls := loop_calls (ticking 1) 0 messages
                 (mk true false 0 0 DiscordRateLimiter.init Idle) in
  monotone (ticking 1) /\
  StronglySorted (fun y x => y + (1 # 2) <= x) (Usage.sent_times calls).
Proof.
  intros messages calls.
  assert (Hm : monotone (ticking 1))
    by (apply ticking_monotone; apply Qle_bool_iff; reflexivity).
  split; [exact Hm|].
  exact (proj1 (proj2 (proj2
           (send_messages_is_paced (ticking 1)
              (mk true false 0 0 DiscordRateLimiter.init Idle)
              messages 1 eq_refl Hm)))).
Defined.

(** X10.  The counters of the application and of the limiter agree:
    over a call of [send_messages], [analytics sent] and
    [total_processed] grow by the number of messages delivered, and
    [analytics errors] and [rate_limit_hits] by the number of messages
    refused. *)
Theorem send_messages_counters_agree (env : nat -> turn) (a : t)
        (messages : list string) (delay : Q) :
  let r := send_messages env a messages delay in
  (analytics_sent (fst r) - analytics_sent a
   = Z.of_nat (List.length (delivered (snd r))))%Z /\
  (total_processed (rate_limiter (fst r)) - total_processed (rate_limiter a)
   = Z.of_nat (List.length (delivered (snd r))))%Z /\
  (analytics_errors (fst r) - analytics_errors a
   = Z.of_nat (List.length (denied (snd r))))%Z /\
  (rate_limit_hits (rate_limiter (fst r)) - rate_limit_hits (rate_limiter a)
   = Z.of_nat (List.length (denied (snd r))))%Z.
Proof.
  intros r.
  destruct (send_loop_limiter env delay messages 0%nat a) as (E1 & E2 & E3).
  pose proof (send_loop_trace env delay messages 0%nat a) as Ht.
  destruct (run_counters (loop_calls env 0 messages a) (rate_limiter a))
    as (C1 & C2).
  rewrite count_sent_length in C1.
  subst r. unfold send_messages. simpl in Ht.
  destruct (send_loop env delay 0 messages a) as [a1 tr]. simpl in *.
  destruct Ht as (_ & _ & _ & _ & Hs & He).
  rewrite E1, C1, C2, E2, E3, Hs, He. lia.
Qed.

Lemma sorted_filter {A : Type} (R : A -> A -> Prop) (f : A -> bool)
      (l : list A) :
  StronglySorted R l -> StronglySorted R (filter f l).
Proof.
  induction 1 as [|x l Hl IH Hx]; simpl; [constructor|].
  destruct (f x); [|exact IH]. constructor; [exact IH|].
  apply Forall_forall. intros y Hy. apply filter_In in Hy as [Hy _].
  rewrite Forall_forall in Hx. now apply Hx.
Qed.

Lemma Forall_filter {A : Type} (P : A -> Prop) (f : A -> bool)
      (l : list A) :
  Forall P l -> Forall P (filter f l).
Proof.
  intros H. apply Forall_forall. intros y Hy.
  apply filter_In in Hy as [Hy _]. rewrite Forall_forall in H. now apply H.
Qed.

(** Sends two seconds apart inside an interval: their number is
    bounded by its length. *)
Lemma gap2_span (l : list Q) :
  StronglySorted gap2 l ->
  forall (lo hi : Q) (n : nat),
    Forall (fun y => lo < y /\ y <= hi) l ->
    List.length l = S n ->
    lo + 2 * inject_Z (Z.of_nat n) < hi.
Proof.
  induction 1 as [|x l Hl IH Hx]; intros lo hi n Hin Hlen;
    [discriminate|].
  apply Forall_cons_iff in Hin as [[Hlo Hhi] Hin].
  destruct l as [|z l'].
  - simpl in Hlen. injection Hlen as <-.
    change (inject_Z (Z.of_nat 0)) with 0. lra.
  - destruct n as [|n]; [discriminate|].
    assert (Hlen' : List.length (z :: l') = S n) by (simpl in *; lia).
    assert (Hin' : Forall (fun y => lo + 2 < y /\ y <= hi) (z :: l')).
    { apply Forall_forall. intros y Hy.
      rewrite Forall_forall in Hx, Hin.
      specialize (Hx y Hy). specialize (Hin y Hy). unfold gap2 in Hx.
      split; lra. }
    specialize (IH (lo + 2) hi n Hin' Hlen').
    rewrite Nat2Z.inj_succ. unfold Z.succ. rewrite inject_Z_plus.
    change (inject_Z 1) with 1. lra.
Qed.

(** What an answer [False] tells. *)
Lemma can_send_message_false (s : DiscordRateLimiter.t) (now : Q) :
  fst (can_send_message s now) = false ->
  (burst_threshold s <= Z.of_nat (List.length (recent s now)))%Z \/
  (recent s now <> [] /\ now - last (recent s now) 0 < rate_limit s).
Proof.
  unfold can_send_message; simpl.
  destruct (_ <=? _)%Z eqn:Eb; simpl.
  - apply Z.leb_le in Eb. now left.
  - intros H. right.
    destruct (recent s now) as [|h r] eqn:Er; [discriminate|].
    split; [discriminate|]. simpl nonempty in H. simpl andb in H.
    destruct (Qltb _ _) eqn:El; [|discriminate].
    now apply Qltb_lt in El.
Qed.

Lemma recent_in (s : DiscordRateLimiter.t) (now y : Q) :
  In y (recent s now) ->
  In y (message_history s) /\ now - y < burst_window s.
Proof.
  unfold recent. intros H. apply filter_In in H as [H1 H2].
  split; [exact H1 | now apply Qltb_lt].
Qed.

(** In a slow run the limiter always answers [True]. *)
Lemma slow_invariant_allows (s : DiscordRateLimiter.t) (lo now : Q) :
  slow_invariant s lo -> lo <= now ->
  fst (can_send_message s now) = true.
Proof.
  intros (Hbt & Hbw & Hrl & Hs & Hf) Hlo.
  destruct (fst (can_send_message s now)) eqn:E; [reflexivity|].
  exfalso. apply can_send_message_false in E.
  assert (Hsr : StronglySorted gap2 (recent s now))
    by (apply sorted_filter; exact Hs).
  assert (Hfr : Forall (fun y => now - 10 < y /\ y <= now - 2)
                       (recent s now)).
  { apply Forall_forall. intros y Hy.
    apply recent_in in Hy as [Hy Hw]. rewrite Hbw in Hw.
    rewrite Forall_forall in Hf. specialize (Hf y Hy). simpl in Hf.
    split; lra. }
  destruct E as [E | [Hne E]].
  - rewrite Hbt in E.
    destruct (List.length (recent s now)) as [|n] eqn:El; [lia|].
    pose proof (gap2_span _ Hsr (now - 10) (now - 2) n Hfr El) as Hspan.
    assert (Hn : inject_Z 4 <= inject_Z (Z.of_nat n))
      by (rewrite <- Zle_Qle; lia).
    change (inject_Z 4) with 4 in Hn. lra.
  - rewrite Hrl in E.
    assert (Hl : In (last (recent s now) 0) (recent s now)).
    { destruct (recent s now) as [|h r]; [congruence|].
      destruct (exists_last (l := h :: r)) as (l' & z & El);
        [discriminate|].
      rewrite El, last_last. apply in_or_app. right. now left. }
    rewrite Forall_forall in Hfr. specialize (Hfr _ Hl). simpl in Hfr. lra.
Qed.

Lemma slow_invariant_delivered (s : DiscordRateLimiter.t)
      (lo now after next : Q) :
  slow_invariant s lo -> lo <= now -> now <= after -> after + 2 <= next ->
  slow_invariant
    (register_message_sent (snd (can_send_message s now)) after) next.
Proof.
  intros (Hbt & Hbw & Hrl & Hs & Hf) Hlo Hna Han.
  destruct (can_send_message_frame s now) as (Fbt & Fbw & Frl & _).
  unfold slow_invariant, register_message_sent; simpl.
  rewrite Fbt, Fbw, Frl, can_send_message_history.
  split; [exact Hbt|]. split; [exact Hbw|]. split; [exact Hrl|].
  assert (Hfr : Forall (fun y => y + 2 <= lo) (recent s now))
    by (apply Forall_filter; exact Hf).
  split.
  - apply sorted_snoc; [apply sorted_filter; exact Hs|].
    eapply Forall_impl; [|exact Hfr]. unfold gap2. intros y Hy.
    simpl in Hy. lra.
  - apply Forall_app. split.
    + eapply Forall_impl; [|exact Hfr]. intros y Hy. simpl in Hy. lra.
    + constructor; [exact Han | constructor].
Qed.

Lemma send_loop_slow (env : nat -> turn) (delay : Q)
      (messages : list string) :
  slow env ->
  forall (i : nat) (a : t),
    slow_invariant (rate_limiter a) (t_check (env i)) ->
    denied (snd (send_loop env delay i messages a)) = [] /\
    delivered (snd (send_loop env delay i messages a))
    = handled (snd (send_loop env delay i messages a)).
Proof.
  intros Hslow.
  induction messages as [|msg rest IH]; intros i a Hinv; simpl; [tauto|].
  destruct (perform_counters a (pressed (env i))) as (_ & _ & Erl).
  set (a0 := fold_left perform (pressed (env i)) a) in *.
  destruct (is_sending a0); simpl; [|tauto].
  rewrite <- Erl in Hinv.
  pose proof (slow_invariant_allows _ _ _ Hinv (Qle_refl _)) as Hok.
  pose proof (send_one_cases a0 msg (env i)) as H1. simpl in H1.
  rewrite Hok in H1. destruct H1 as (Et & _ & _ & Er).
  destruct (Hslow i) as (Hca & Han).
  assert (Hinv' : slow_invariant
                    (rate_limiter (fst (send_one a0 msg (env i))))
                    (t_check (env (S i)))).
  { rewrite Er.
    apply slow_invariant_delivered with (lo := t_check (env i));
      try assumption. apply Qle_refl. }
  specialize (IH (S i) (fst (send_one a0 msg (env i))) Hinv').
  destruct (send_one a0 msg (env i)) as [a1 evs]. simpl in *.
  destruct (send_loop env delay (S i) rest a1) as [a2 tr]. simpl in *.
  destruct IH as (Hd & Hh). subst evs. simpl. rewrite Hd, Hh. tauto.
Qed.

Lemma slow_invariant_init (lo : Q) :
  slow_invariant DiscordRateLimiter.init lo.
Proof.
  unfold slow_invariant; simpl.
  repeat (split; [reflexivity|]). split; constructor.
Qed.

(** X11.  A slow run loses nothing.  With a limiter fresh at the start
    and a clock that shows at least two seconds between the end of a
    turn and the check of the next one, the limiter never refuses:
    every message the loop handles is delivered and no error is
    counted; when the run is not stopped or cancelled, all the
    messages are delivered, in their order. *)
Theorem slow_run_delivers_all (env : nat -> turn) (a : t)
        (messages : list string) (delay : Q) :
  rate_limiter a = DiscordRateLimiter.init -> slow env ->
  let r := send_messages env a messages delay in
  let running := mk true (queue_paused a) (analytics_sent a)
                    (analytics_errors a) (rate_limiter a) (status_var a) in
  denied (snd r) = [] /\
  delivered (snd r) = handled (snd r) /\
  analytics_errors (fst r) = analytics_errors a /\
  delivered (snd (send_messages (only_pauses env) running messages delay))
  = messages.
Proof.
  intros Hinit Hslow r running.
  assert (Hinv : slow_invariant (rate_limiter a) (t_check (env 0%nat)))
    by (rewrite Hinit; apply slow_invariant_init).
  destruct (send_loop_slow env delay messages Hslow 0%nat a Hinv)
    as (Hd & Hh).
  pose proof (send_loop_trace env delay messages 0%nat a) as Ht.
  assert (Hslow' : slow (only_pauses env))
    by (intros i; exact (Hslow i)).
  assert (Hinv' : slow_invariant (rate_limiter running)
                                 (t_check (only_pauses env 0%nat)))
    by (simpl; rewrite Hinit; apply slow_invariant_init).
  destruct (send_loop_slow (only_pauses env) delay messages Hslow'
              0%nat running Hinv') as (_ & Hh').
  pose proof (send_loop_all_handled env delay messages 0%nat running
                eq_refl) as Hall.
  subst r. unfold send_messages. simpl in Ht.
  destruct (send_loop env delay 0 messages a) as [a1 tr].
  destruct (send_loop (only_pauses env) delay 0 messages running)
    as [b1 tr'].
  simpl in *. destruct Ht as (_ & _ & _ & _ & _ & He).
  split; [exact Hd|]. split; [exact Hh|]. split.
  - rewrite He, Hd. simpl. lia.
  - rewrite Hh'. exact Hall.
Qed.

Lemma ticking_slow (step : Q) : 2 <= step -> slow (ticking step).
Proof.
  intros Hs i. unfold ticking, quiet. simpl. rewrite paced_succ.
  split; lra.
Qed.

Lemma slow_run_delivers_all_witness :
  let messages := ["one"; "two"; "three"; "four"; "five"; "six"]%string in
  slow (ticking 2) /\
  denied (snd (start_sending (ticking 2) init messages 2)) = [].
Proof.
  intros messages.
  assert (Hs : slow (ticking 2))
    by (apply ticking_slow; apply Qle_bool_iff; reflexivity).
  split; [exact Hs|].
  exact (proj1 (slow_run_delivers_all (ticking 2)
                  (mk true false 0 0 DiscordRateLimiter.init StartedSending)
                  messages 2 eq_refl Hs)).
Defined.

End QueueUsageFacts.

(** ** More on the retrying transmitter *)

Section TypingFacts.
Import Transmitter.
Import Typing.

Lemma typed_app (tr1 tr2 : list event) :
  forall text, typed (tr1 ++ tr2) text = typed tr2 (typed tr1 text).
Proof.
  induction tr1 as [|x tr1 IH]; intros text; simpl; [reflexivity|].
  destruct x as [ok | k | d | a | m]; simpl; try apply IH.
  destruct k; apply IH.
Qed.

Lemma enters_app (tr1 tr2 : list event) :
  enters (tr1 ++ tr2) = (enters tr1 + enters tr2)%nat.
Proof.
  induction tr1 as [|x tr1 IH]; simpl; [reflexivity|].
  destruct x as [ok | k | d | a | m]; simpl; try apply IH.
  destruct k; simpl; now rewrite IH.
Qed.

Lemma dialogs_app (tr1 tr2 : list event) :
  dialogs (tr1 ++ tr2) = (dialogs tr1 + dialogs tr2)%nat.
Proof.
  induction tr1 as [|x tr1 IH]; simpl; [reflexivity|].
  destruct x; simpl; now rewrite IH.
Qed.

Lemma typing_enters (tr : list event) :
  Forall is_typing tr -> enters tr = 0%nat /\ dialogs tr = 0%nat.
Proof.
  induction 1 as [|x tr Hx _ IH]; simpl; [tauto|].
  destruct x as [ok | k | d | a | m]; simpl in Hx; try contradiction;
    [destruct k; try contradiction|]; exact IH.
Qed.

(** What the loop over the characters does to the input box, which
    holds [text] before: when it ends all the characters were added;
    when a call of the keyboard or of [sleep] raises, a part of them
    was, followed by at most one wrong character. *)
Lemma type_chars_typed (e : env) (s : settings) (attempt : nat)
      (chars : list ascii) :
  forall (j n : nat) (text : list ascii),
    Forall is_typing (fst (type_chars e s attempt chars j n)) /\
    match snd (type_chars e s attempt chars j n) with
    | Some _ =>
        typed (fst (type_chars e s attempt chars j n)) text
        = (text ++ chars)%list
    | None =>
        exists p q, chars = (p ++ q)%list /\
          (typed (fst (type_chars e s attempt chars j n)) text
           = (text ++ p)%list \/
           exists c, typed (fst (type_chars e s attempt chars j n)) text
                     = (text ++ p ++ [c])%list)
    end.
Proof.
  induction chars as [|char rest IH]; intros j n text.
  - simpl. split; [constructor | now rewrite app_nil_r].
  - simpl type_chars.
    set (mistake := get (mistake_simulation s) false && _).
    set (pause := if get (random_delay s) false then _ else _).
    assert (Hpause : exists d, pause = sleep d)
      by (unfold pause; destruct (get (random_delay s) false); eauto).
    destruct Hpause as (d & ->).
    assert (Hrest : forall n' pre,
      Forall is_typing pre ->
      typed pre text = (text ++ [char])%list ->
      let r := type_chars e s attempt rest (S j) n' in
      Forall is_typing (pre ++ fst r) /\
      match snd r with
      | Some _ => typed (pre ++ fst r) text = (text ++ char :: rest)%list
      | None =>
          exists p q, char :: rest = (p ++ q)%list /\
            (typed (pre ++ fst r) text = (text ++ p)%list \/
             exists c, typed (pre ++ fst r) text = (text ++ p ++ [c])%list)
      end).
    { intros n' pre Hpre Htyped r. subst r.
      specialize (IH (S j) n' (text ++ [char])%list).
      destruct (type_chars e s attempt rest (S j) n') as [ev r].
      simpl in *. destruct IH as (Hf & Ht).
      split; [apply Forall_app; tauto|].
      rewrite typed_app, Htyped.
      destruct r as [r|].
      - rewrite Ht, <- app_assoc. reflexivity.
      - destruct Ht as (p & q & -> & Ht).
        exists (char :: p), q. split; [reflexivity|].
        destruct Ht as [Ht | (c & Ht)]; [left | right; exists c];
          rewrite Ht, <- app_assoc; reflexivity. }
    unfold bind, when, press, sleep, ret.
    destruct mistake.
    + destruct (key_ok e attempt n) eqn:K1; simpl.
      * destruct (Qltb (get (typing_speed s) (1 # 100)) 0) eqn:S1; simpl.
        -- split; [repeat (constructor; [exact I|]); constructor|].
           exists [], (char :: rest). split; [reflexivity|].
           right. exists (choice e attempt j). reflexivity.
        -- destruct (key_ok e attempt (S n)) eqn:K2; simpl.
           ++ destruct (key_ok e attempt (S (S n))) eqn:K3; simpl.
              ** destruct (Qltb d 0) eqn:S2; simpl.
                 --- rewrite removelast_last.
                     split; [repeat (constructor; [exact I|]); constructor|].
                     exists [char], rest. split; [reflexivity|]. now left.
                 --- specialize
                       (Hrest (S (S (S n)))
                          [Key (Write (choice e attempt j));
                           Sleep (get (typing_speed s) (1 # 100));
                           Key Backspace; Key (Write char); Sleep d]).
                     simpl in Hrest. rewrite removelast_last in Hrest.
                     destruct (type_chars e s attempt rest (S j)
                                 (S (S (S n)))) as [ev r].
                     simpl in *. rewrite removelast_last.
                     apply Hrest; [|reflexivity].
                     repeat (constructor; [exact I|]); constructor.
              ** rewrite removelast_last.
                 split; [repeat (constructor; [exact I|]); constructor|].
                 exists [], (char :: rest). split; [reflexivity|].
                 left. now rewrite app_nil_r.
           ++ split; [repeat (constructor; [exact I|]); constructor|].
              exists [], (char :: rest). split; [reflexivity|].
              right. exists (choice e attempt j). reflexivity.
      * split; [constructor|].
        exists [], (char :: rest). split; [reflexivity|].
        left. now rewrite app_nil_r.
    + destruct (key_ok e attempt n) eqn:K1; simpl.
      * destruct (Qltb d 0) eqn:S2; simpl.
        -- split; [repeat (constructor; [exact I|]); constructor|].
           exists [char], rest. split; [reflexivity|]. now left.
        -- specialize (Hrest (S n) [Key (Write char); Sleep d]).
           simpl in Hrest.
           destruct (type_chars e s attempt rest (S j) (S n)) as [ev r].
           simpl in *. apply Hrest; [|reflexivity].
           repeat (constructor; [exact I|]); constructor.
      * split; [constructor|].
        exists [], (char :: rest). split; [reflexivity|].
        left. now rewrite app_nil_r.
Qed.

Lemma transmit_shape (e : env) (s : settings) (attempt : nat)
      (message : string) (n : nat) :
  let chars := list_ascii_of_string message in
  let r := transmit e s attempt message n in
  match snd r with
  | Some _ =>
      typed (fst r) [] = chars /\
      exists ev, fst r = (ev ++ [Key Enter])%list /\ Forall is_typing ev
  | None =>
      Forall is_typing (fst r) /\
      exists p q, chars = (p ++ q)%list /\
        (typed (fst r) [] = p \/ exists c, typed (fst r) [] = (p ++ [c])%list)
  end.
Proof.
  intros chars r. subst r. unfold transmit, bind, press. fold chars.
  destruct (type_chars_typed e s attempt chars 0 n []) as (Hf & Ht).
  destruct (type_chars e s attempt chars 0 n) as [ev [[x n']|]];
    simpl in *.
  - destruct (key_ok e attempt n'); simpl.
    + split; [rewrite typed_app, Ht; reflexivity|].
      exists ev. split; [reflexivity | exact Hf].
    + rewrite app_nil_r. split; [exact Hf|].
      exists chars, []. split; [now rewrite app_nil_r|]. now left.
  - split; [exact Hf|].
    destruct Ht as (p & q & E & Ht). exists p, q.
    split; [exact E | exact Ht].
Qed.

(** X12.  What an attempt of the bridge types once the window is
    focused.  When no call raises, neither of the keyboard nor of
    [sleep] (which raises for a negative duration), the attempt leaves
    exactly the message in the input box (a simulated typo is erased
    by the Backspace that follows it) and its last key is Enter,
    pressed once.  When a call raises, the attempt has typed a
    beginning of the message followed by at most one wrong character,
    and has not pressed Enter. *)
Theorem transmit_types_the_message (e : env) (s : settings)
        (attempt : nat) (message : string) :
  let chars := list_ascii_of_string message in
  let r := transmit e s attempt message 0%nat in
  match snd r with
  | Some _ =>
      typed (fst r) [] = chars /\ enters (fst r) = 1%nat /\
      exists ev, fst r = (ev ++ [Key Enter])%list
  | None =>
      enters (fst r) = 0%nat /\
      exists p q, chars = (p ++ q)%list /\
        (typed (fst r) [] = p \/ exists c, typed (fst r) [] = (p ++ [c])%list)
  end.
Proof.
  intros chars r.
  pose proof (transmit_shape e s attempt message 0%nat) as H.
  simpl in H. fold chars in H. fold r in H.
  destruct (snd r).
  - destruct H as (Ht & ev & E & Hf). split; [exact Ht|]. split.
    + rewrite E, enters_app. destruct (typing_enters ev Hf) as (-> & _).
      reflexivity.
    + now exists ev.
  - destruct H as (Hf & Hp). split; [|exact Hp].
    now destruct (typing_enters _ Hf).
Qed.

Lemma attempts_loop_submits (e : env) (s : settings) (message : string)
      (remaining : nat) :
  forall attempt,
    let r := attempts_loop e s message remaining attempt in
    enters (snd r) = (if fst r then 1 else 0)%nat /\
    dialogs (snd r) = (if fst r then 0 else 1)%nat.
Proof.
  induction remaining as [|k IH]; intros attempt; simpl; [tauto|].
  specialize (IH (S attempt)). simpl in IH.
  destruct (focus e attempt); simpl.
  - pose proof (transmit_shape e s attempt message 0%nat) as H.
    simpl in H.
    destruct (transmit e s attempt message 0%nat) as [ev [r|]];
      simpl in *.
    + destruct H as (_ & ev' & -> & Hf).
      destruct (typing_enters ev' Hf) as (E1 & E2).
      rewrite enters_app, dialogs_app, E1, E2. tauto.
    + destruct H as (Hf & _).
      destruct (typing_enters ev Hf) as (E1 & E2).
      destruct (attempts_loop e s message k (S attempt)) as [r tr].
      simpl in *. rewrite enters_app, dialogs_app, E1, E2. simpl. exact IH.
  - destruct (attempts_loop e s message k (S attempt)) as [r tr].
    simpl in *. exact IH.
Qed.

(** X13.  The message is submitted at most once.  Whatever the
    collaborators do, Enter is pressed exactly once when
    [send_message_advanced] returns [True] and never when it returns
    [False]; the error dialog is shown exactly when it returns
    [False]. *)
Theorem send_message_advanced_submits_once (e : env) (message : string)
        (s : settings) :
  let r := send_message_advanced e message s in
  enters (snd r) = (if fst r then 1 else 0)%nat /\
  dialogs (snd r) = (if fst r then 0 else 1)%nat.
Proof. apply attempts_loop_submits. Qed.




(** X15.  With [retry_attempts] zero or negative no attempt is made:
    the window is not focused, nothing is typed, and the function
    returns [False] after the error dialog. *)
Theorem send_message_advanced_no_attempt (e : env) (message : string)
        (s : settings) :
  (get (retry_attempts s) 3 <= 0)%Z ->
  send_message_advanced e message s
  = (false, [ErrorDialog (get (retry_attempts s) 3%Z)]).
Proof.
  intros H. unfold send_message_advanced.
  replace (Z.to_nat (get (retry_attempts s) 3%Z)) with 0%nat by lia.
  reflexivity.
Qed.

Lemma send_message_advanced_no_attempt_witness :
  let s := mk_settings (Some 0%Z) None None None None None None in
  (get (retry_attempts s) 3 <= 0)%Z /\
  send_message_advanced all_fine "hi" s = (false, [ErrorDialog 0]).
Proof.
  intros s.
  assert (H : (get (retry_attempts s) 3 <= 0)%Z) by (simpl; apply Z.le_refl).
  split; [exact H|].
  exact (send_message_advanced_no_attempt all_fine "hi" s H).
Defined.


End TypingFacts.

(** ** More on the schedulers *)

Section SchedulerUsageFacts.
Import Calendar.

Lemma lex_antisym (l1 l2 : list Z) :
  List.length l1 = List.length l2 -> lex l2 l1 = CompOpp (lex l1 l2).
Proof.
  revert l2. induction l1 as [|x l1 IH]; intros [|y l2] Hl;
    try discriminate; simpl; [reflexivity|].
  rewrite (Z.compare_antisym x y).
  destruct (x ?= y)%Z; simpl; try reflexivity.
  apply IH. simpl in Hl. lia.
Qed.

Lemma leb_false_ltb (a b : datetime) : leb a b = false -> ltb b a = true.
Proof.
  unfold leb, ltb, compare. rewrite (lex_antisym (fields a) (fields b))
    by reflexivity.
  destruct (lex (fields a) (fields b)); simpl; congruence.
Qed.

(** A time of the day that is still to come is stored for today. *)
Lemma schedule_message_advanced_today
      (a : Bridge.t) (h m : Z) (now : datetime) :
  let msg := PyStr.strip (Bridge.message_entry a ++ PyStr.newline) in
  let today := combine now (time_of (strptime_HM h m)) in
  PyStr.nonempty msg = true ->
  String.eqb msg Bridge.placeholder = false ->
  leb today now = false ->
  Bridge.schedule_message_advanced a (Bridge.HourMinute h m) now =
    Bridge.StoredWithoutTimer today
      (Bridge.mk (Bridge.scheduled_messages a ++ [(today, msg)])
                 (Bridge.message_entry a) (Bridge.status_var a)) /\
  ltb now today = true.
Proof.
  intros msg today Hne Hph Hfut.
  unfold Bridge.schedule_message_advanced.
  fold msg. rewrite Hne, Hph. simpl negb. simpl orb. cbv iota.
  fold today. rewrite Hfut. split; [reflexivity|].
  now apply leb_false_ltb.
Qed.

(** X16.  What [schedule_message_advanced] of the bridge stores.  A
    blank time, a malformed time, an empty message and the placeholder
    text each end in their error box and store nothing.  Every other
    request is stored (an overflow of the date needs the year 9999),
    once, after the entries already there, with the message stripped;
    the send time stored is strictly later than now, at the requested
    hour and minute with zero seconds: today when that time is still
    to come, the next day when it has passed or is now. *)
Theorem schedule_message_advanced_outcomes
        (a : Bridge.t) (field : Bridge.time_field) (now : datetime) :
  let msg := PyStr.strip (Bridge.message_entry a ++ PyStr.newline) in
  let r := Bridge.schedule_message_advanced a field now in
  (field = Bridge.Blank -> r = Bridge.ShowError Bridge.PleaseEnterTime a) /\
  (field = Bridge.Malformed ->
   r = Bridge.ShowError Bridge.InvalidTimeFormat a) /\
  (forall h m, field = Bridge.HourMinute h m ->
     let today := combine now (mk_time h m 0 0) in
     (PyStr.nonempty msg = false \/ msg = Bridge.placeholder ->
      r = Bridge.ShowError Bridge.PleaseEnterMessage a) /\
     (PyStr.nonempty msg = true -> msg <> Bridge.placeholder ->
      (year now < 9999)%Z ->
      exists send_time,
        r = Bridge.StoredWithoutTimer send_time
              (Bridge.mk (Bridge.scheduled_messages a ++ [(send_time, msg)])
                         (Bridge.message_entry a) (Bridge.status_var a)) /\
        ltb now send_time = true /\
        time_of send_time = mk_time h m 0 0 /\
        (if leb today now then add_one_day today = Some send_time
         else send_time = today))) /\
  match r with
  | Bridge.ShowError _ a' => a' = a
  | Bridge.StoredWithoutTimer send_time a' =>
      exists h m,
        let today := combine now (mk_time h m 0 0) in
        field = Bridge.HourMinute h m /\
        ltb now send_time = true /\
        time_of send_time = mk_time h m 0 0 /\
        (if leb today now then add_one_day today = Some send_time
         else send_time = today) /\
        PyStr.nonempty msg = true /\
        msg <> Bridge.placeholder /\
        Bridge.scheduled_messages a'
        = (Bridge.scheduled_messages a ++ [(send_time, msg)])%list
  | Bridge.Overflow => (9999 <= year now)%Z
  end.
Proof.
  intros msg r.
  split; [intros ->; reflexivity|]. split; [intros ->; reflexivity|]. split.
  - intros h m -> today. split.
    + intros Hbad. subst r. unfold Bridge.schedule_message_advanced.
      fold msg. destruct Hbad as [Hne | Hph].
      * now rewrite Hne.
      * apply String.eqb_eq in Hph. rewrite Hph.
        now rewrite orb_true_r.
    + intros Hne Hph Hy. apply String.eqb_neq in Hph.
      destruct (leb today now) eqn:Hpast.
      * destruct (schedule_message_advanced_future a h m now Hne Hph Hy Hpast)
          as (st & E & Ea & Et & Hl).
        exists st. tauto.
      * destruct (schedule_message_advanced_today a h m now Hne Hph Hpast)
          as (E & Hl).
        exists today. tauto.
  - subst r. unfold Bridge.schedule_message_advanced.
    destruct field as [| | h m]; try reflexivity.
    fold msg.
    change (time_of (strptime_HM h m)) with (mk_time h m 0 0).
    set (today := combine now (mk_time h m 0 0)).
    destruct (PyStr.nonempty msg) eqn:Hne; simpl; [|reflexivity].
    destruct (String.eqb msg Bridge.placeholder) eqn:Hph; [reflexivity|].
    apply String.eqb_neq in Hph.
    destruct (leb today now) eqn:Hpast.
    + destruct (add_one_day today) as [st|] eqn:Ea.
      * exists h, m. fold today. rewrite Hpast.
        split; [reflexivity|]. split.
        -- now apply (add_one_day_later today st now Ea).
        -- split; [now rewrite (add_one_day_time today st Ea)|]. tauto.
      * unfold add_one_day in Ea.
        destruct (day today <? _)%Z; [discriminate|].
        destruct (month today <? 12)%Z; [discriminate|].
        destruct (year today <? 9999)%Z eqn:E3; [discriminate|].
        apply Z.ltb_ge in E3. exact E3.
    + exists h, m. fold today. rewrite Hpast.
      split; [reflexivity|]. split; [now apply leb_false_ltb|]. tauto.
Qed.

Lemma schedule_message_advanced_outcomes_witness :
  let a := Bridge.mk [] "hello" "Ready" in
  let now := mk 2025 1 31 12 0 0 0 in
  let send_time := mk 2025 2 1 11 0 0 0 in
  Bridge.schedule_message_advanced a (Bridge.HourMinute 11 0) now
  = Bridge.StoredWithoutTimer send_time
      (Bridge.mk [(send_time, "hello"%string)] "hello" "Ready").
Proof.
  intros a now send_time.
  destruct (proj1 (proj2 (proj2
              (schedule_message_advanced_outcomes
                 a (Bridge.HourMinute 11 0) now)))
              11%Z 0%Z eq_refl) as (_ & Hstore).
  destruct Hstore as (st & E & _ & _ & Hd);
    [reflexivity | intros H; vm_compute in H; discriminate H | reflexivity |].
  vm_compute in Hd. injection Hd as <-. exact E.
Defined.

Lemma schedule_message_next_day_witness :
  let a := WorkingCopy.set_message_entry "hello" WorkingCopy.init in
  let now := mk 2025 1 30 12 0 0 0 in
  ltb (mk 2025 1 30 11 0 0 0) now = true /\
  WorkingCopy.scheduled_messages
    (WorkingCopy.schedule_message a (WorkingCopy.HourMinute 11 0) now)
  = [(mk 2025 1 31 11 0 0 0, "hello"%string)].
Proof.
  intros a now.
  split; [reflexivity|].
  exact (proj1 (schedule_message_next_day a 11 0 now
                  eq_refl eq_refl eq_refl eq_refl)).
Defined.

Lemma schedule_message_last_day_witness :
  let a := WorkingCopy.set_message_entry "hello" WorkingCopy.init in
  let now := mk 2024 2 29 12 0 0 0 in
  day now = days_in_month (year now) (month now) /\
  ltb (mk 2024 2 29 11 0 0 0) now = true /\
  WorkingCopy.schedule_message a (WorkingCopy.HourMinute 11 0) now
  = WorkingCopy.set_status WorkingCopy.InvalidTimeFormat a.
Proof.
  intros a now.
  split; [reflexivity|]. split; [reflexivity|].
  exact (schedule_message_last_day a 11 0 now
           eq_refl eq_refl eq_refl eq_refl).
Defined.

End SchedulerUsageFacts.

(** ** Messages read from the text box *)

Section TextFacts.
Import PyStr.
Import Text.

Lemma lstrip_split (l : list ascii) :
  exists sp, l = (sp ++ lstrip_chars l)%list /\
             Forall (fun c => is_space c = true) sp.
Proof.
  induction l as [|c l IH]; simpl.
  - exists []. split; [reflexivity | constructor].
  - destruct (is_space c) eqn:E.
    + destruct IH as (sp & E1 & E2). exists (c :: sp). split.
      * simpl. now f_equal.
      * now constructor.
    + exists []. split; [reflexivity | constructor].
Qed.

Lemma lstrip_head (l : list ascii) (c : ascii) (r : list ascii) :
  lstrip_chars l = c :: r -> is_space c = false.
Proof.
  induction l as [|x l IH]; simpl; [discriminate|].
  destruct (is_space x) eqn:E; [exact IH|].
  intros H. injection H as -> _. exact E.
Qed.

Lemma lstrip_spaces (sp l : list ascii) :
  Forall (fun c => is_space c = true) sp ->
  lstrip_chars (sp ++ l) = lstrip_chars l.
Proof.
  induction 1 as [|c sp Hc _ IH]; simpl; [reflexivity|]. now rewrite Hc.
Qed.

Lemma strip_chars_split (l : list ascii) :
  exists sp1 sp2, l = (sp1 ++ strip_chars l ++ sp2)%list.
Proof.
  unfold strip_chars.
  destruct (lstrip_split l) as (sp1 & E1 & _).
  destruct (lstrip_split (rev (lstrip_chars l))) as (sp & E2 & _).
  exists sp1, (rev sp). rewrite <- rev_app_distr, <- E2, rev_involutive.
  exact E1.
Qed.

Lemma strip_chars_trimmed (l : list ascii) : trimmed (strip_chars l).
Proof.
  unfold strip_chars.
  set (A := lstrip_chars l).
  destruct (lstrip_split (rev A)) as (sp & E2 & _).
  set (B := lstrip_chars (rev A)) in *.
  assert (EA : A = (rev B ++ rev sp)%list)
    by (rewrite <- rev_app_distr, <- E2, rev_involutive; reflexivity).
  split.
  - intros c r E. rewrite E in EA. simpl in EA.
    now apply (lstrip_head l c (r ++ rev sp)%list).
  - intros r c E.
    assert (EB : B = c :: rev r).
    { rewrite <- (rev_involutive B), E, rev_app_distr. reflexivity. }
    now apply (lstrip_head (rev A) c (rev r)).
Qed.

Lemma strip_chars_of_trimmed (l sp : list ascii) :
  trimmed l -> Forall (fun c => is_space c = true) sp ->
  strip_chars (l ++ sp) = l.
Proof.
  intros (Hh & Ht) Hsp. unfold strip_chars.
  destruct l as [|c r].
  - simpl. rewrite <- (app_nil_r sp), lstrip_spaces by exact Hsp.
    reflexivity.
  - simpl. rewrite (Hh c r eq_refl).
    change (c :: (r ++ sp)%list) with ((c :: r) ++ sp)%list.
    rewrite rev_app_distr, lstrip_spaces
      by (apply Forall_rev; exact Hsp).
    destruct (exists_last (l := c :: r)) as (r' & z & E);
      [discriminate|].
    rewrite E, rev_app_distr. simpl. rewrite (Ht r' z E).
    simpl. now rewrite rev_involutive.
Qed.

Lemma strip_chars_idempotent (l : list ascii) :
  strip_chars (strip_chars l) = strip_chars l.
Proof.
  rewrite <- (app_nil_r (strip_chars l)) at 1.
  apply strip_chars_of_trimmed; [apply strip_chars_trimmed | constructor].
Qed.

Lemma strip_idempotent (s : string) : strip (strip s) = strip s.
Proof.
  unfold strip. rewrite list_ascii_of_string_of_list_ascii.
  now rewrite strip_chars_idempotent.
Qed.

Lemma strip_chars_one_line (l : list ascii) :
  one_line l -> one_line (strip_chars l).
Proof.
  intros H. destruct (strip_chars_split l) as (sp1 & sp2 & E).
  unfold one_line in *. rewrite E in H.
  apply Forall_app in H as [_ H]. now apply Forall_app in H as [H _].
Qed.

Lemma splitlines_chars_one_line (n : nat) :
  forall (l cur : list ascii),
    (List.length l <= n)%nat -> one_line cur ->
    Forall one_line (splitlines_chars cur l).
Proof.
  induction n as [|n IH]; intros l cur Hl Hcur.
  - destruct l; [|simpl in Hl; lia]. simpl.
    destruct cur; [constructor|]. constructor; [|constructor].
    now apply Forall_rev.
  - destruct l as [|c rest]; simpl.
    + destruct cur; [constructor|]. constructor; [|constructor].
      now apply Forall_rev.
    + simpl in Hl. destruct (is_line_boundary c) eqn:Eb.
      * constructor; [now apply Forall_rev|].
        destruct rest as [|c' rest']; [constructor|].
        destruct (_ && _); apply IH; simpl in *; try lia; constructor.
      * apply IH; [lia|]. now constructor.
Qed.

Lemma splitlines_chars_single (l : list ascii) :
  forall cur, one_line l -> l <> [] ->
              splitlines_chars cur l = [(rev cur ++ l)%list].
Proof.
  induction l as [|c rest IH]; intros cur Hl Hne; [congruence|].
  apply Forall_cons_iff in Hl as [Hc Hl]. simpl. rewrite Hc.
  destruct rest as [|c' rest'].
  - reflexivity.
  - rewrite IH; [|exact Hl|discriminate]. simpl.
    now rewrite <- app_assoc.
Qed.

Lemma list_ascii_of_string_app (s1 s2 : string) :
  list_ascii_of_string (s1 ++ s2)
  = (list_ascii_of_string s1 ++ list_ascii_of_string s2)%list.
Proof. induction s1 as [|c s1 IH]; simpl; [reflexivity | now f_equal]. Qed.

Lemma nonempty_chars (s : string) :
  nonempty s = true <-> list_ascii_of_string s <> [].
Proof. destruct s; simpl; split; congruence. Qed.

(** Each line that is kept, once stripped, is a clean message. *)
Lemma stripped_line_clean (line : string) :
  one_line (list_ascii_of_string line) ->
  nonempty (strip line) = true ->
  clean (strip line).
Proof.
  intros Hl Hne. split; [exact Hne|]. split; [apply strip_idempotent|].
  unfold strip. rewrite list_ascii_of_string_of_list_ascii.
  now apply strip_chars_one_line.
Qed.

Lemma splitlines_one_line (s line : string) :
  In line (splitlines s) -> one_line (list_ascii_of_string line).
Proof.
  unfold splitlines. intros H. apply in_map_iff in H as (l & <- & Hin).
  rewrite list_ascii_of_string_of_list_ascii.
  pose proof (splitlines_chars_one_line
                (List.length (list_ascii_of_string s))
                (list_ascii_of_string s) [] (le_n _) (Forall_nil _)) as Hf.
  rewrite Forall_forall in Hf. now apply Hf.
Qed.

Lemma main_messages_clean (text m : string) :
  In m (MainWindow.get_messages text) -> clean m.
Proof.
  unfold MainWindow.get_messages. intros H.
  apply in_map_iff in H as (line & <- & Hin).
  apply filter_In in Hin as (Hin & Hne).
  apply stripped_line_clean; [|exact Hne].
  now apply (splitlines_one_line (text ++ newline)).
Qed.

Lemma copy_messages_clean (a : WorkingCopy.t) (m : string) :
  In m (WorkingCopy.get_messages a) -> clean m.
Proof.
  unfold WorkingCopy.get_messages. intros H.
  destruct (negb _ || _); [destruct H|].
  apply filter_In in H as (Hin & Hne).
  apply in_map_iff in Hin as (line & <- & Hin).
  apply stripped_line_clean; [|exact Hne].
  now apply (splitlines_one_line (strip (WorkingCopy.entry_get a))).
Qed.

(** X17.  [get_messages] returns clean messages only: every message
    it returns, in [main.py] as in the copy of [Working Versions], is
    not empty, has no white space at either end and holds no line
    break; and the copy returns no message for a box that is blank or
    still shows the placeholder. *)
Theorem get_messages_clean (text : string) (a : WorkingCopy.t) :
  (forall m, In m (MainWindow.get_messages text) -> clean m) /\
  (forall m, In m (WorkingCopy.get_messages a) -> clean m) /\
  (strip (WorkingCopy.entry_get a) = EmptyString \/
   strip (WorkingCopy.entry_get a) = WorkingCopy.placeholder ->
   WorkingCopy.get_messages a = []).
Proof.
  split; [intros m; apply main_messages_clean|].
  split; [intros m; apply copy_messages_clean|].
  unfold WorkingCopy.get_messages. intros [-> | ->]; [reflexivity|].
  rewrite String.eqb_refl. now rewrite orb_true_r.
Qed.

Lemma clean_trimmed (m : string) :
  clean m -> trimmed (list_ascii_of_string m).
Proof.
  intros (_ & Hs & _). unfold strip in Hs.
  apply (f_equal list_ascii_of_string) in Hs.
  rewrite list_ascii_of_string_of_list_ascii in Hs.
  rewrite <- Hs. apply strip_chars_trimmed.
Qed.

(** The box that holds one clean message gives back this message. *)
Lemma get_messages_of_clean (a : WorkingCopy.t) (m : string) :
  clean m -> String.eqb m WorkingCopy.placeholder = false ->
  WorkingCopy.get_messages (WorkingCopy.set_message_entry m a) = [m].
Proof.
  intros Hc Hp. pose proof (clean_trimmed m Hc) as Ht.
  destruct Hc as (Hne & Hs & Hl).
  assert (Hnl : Forall (fun c => is_space c = true)
                       (list_ascii_of_string newline))
    by (repeat constructor).
  assert (Etext : strip (WorkingCopy.entry_get
                           (WorkingCopy.set_message_entry m a)) = m).
  { unfold WorkingCopy.entry_get, strip. simpl.
    rewrite list_ascii_of_string_app.
    rewrite (strip_chars_of_trimmed _ _ Ht Hnl).
    apply string_of_list_ascii_of_string. }
  unfold WorkingCopy.get_messages. rewrite Etext, Hne, Hp. simpl.
  unfold splitlines.
  rewrite (splitlines_chars_single (list_ascii_of_string m) [] Hl)
    by (now apply nonempty_chars).
  simpl. rewrite string_of_list_ascii_of_string, Hs, Hne. reflexivity.
Qed.

(** X18.  A clean message scheduled in the copy of [Working Versions]
    is handed over unchanged, unless it is the placeholder text.  When
    the clock has reached the time the thread waits for, the delay
    field holding a number that is not negative, the thread fills the
    box with the message and calls [start_sending].  For a message
    other than the placeholder this starts one sending thread, for
    this message alone, and sets [is_sending].  For the placeholder,
    which [schedule_message] accepts like any other text,
    [get_messages] finds no message: no thread is started,
    [is_sending] is left as it was and the status reads that there is
    no message to send. *)
Theorem wait_and_send_hands_over
        (a : WorkingCopy.t) (now send_time : Calendar.datetime)
        (m : string) (delay : Q) :
  clean m ->
  WorkingCopy.delay_var a = Some delay -> 0 <= delay ->
  Calendar.ltb now send_time = false ->
  exists a',
    WorkingCopy.wait_and_send_poll a now send_time m = Some a' /\
    WorkingCopy.message_entry a' = m /\
    if String.eqb m WorkingCopy.placeholder then
      WorkingCopy.threads a' = WorkingCopy.threads a /\
      WorkingCopy.is_sending a' = WorkingCopy.is_sending a /\
      WorkingCopy.status_var a' = WorkingCopy.NoMessagesToSend
    else
      WorkingCopy.threads a'
      = (WorkingCopy.threads a
         ++ [WorkingCopy.SendMessages [m] delay])%list /\
      WorkingCopy.is_sending a' = true /\
      WorkingCopy.status_var a' = WorkingCopy.SendingMessages.
Proof.
  intros Hc Hd Hpos Hnow.
  unfold WorkingCopy.wait_and_send_poll. rewrite Hnow.
  eexists. split; [reflexivity|].
  unfold WorkingCopy.start_sending.
  destruct (String.eqb m WorkingCopy.placeholder) eqn:Hp.
  - apply String.eqb_eq in Hp. subst m.
    replace (WorkingCopy.get_messages
               (WorkingCopy.set_message_entry WorkingCopy.placeholder a))
      with (@nil string) by reflexivity.
    simpl. tauto.
  - rewrite (get_messages_of_clean a m Hc Hp).
    unfold WorkingCopy.get_delay. simpl. rewrite Hd.
    apply Qltb_ge in Hpos. rewrite Hpos. simpl. tauto.
Qed.

Lemma wait_and_send_hands_over_witness :
  let noon := Calendar.mk 2025 6 15 12 0 0 0 in
  clean "hello" /\
  exists a',
    WorkingCopy.wait_and_send_poll WorkingCopy.init noon noon "hello"
    = Some a' /\
    WorkingCopy.threads a' = [WorkingCopy.SendMessages ["hello"%string] 1].
Proof.
  intros noon.
  assert (Hc : clean "hello").
  { split; [reflexivity|]. split; [reflexivity|].
    repeat constructor. }
  split; [exact Hc|].
  destruct (wait_and_send_hands_over WorkingCopy.init noon noon "hello" 1
              Hc eq_refl) as (a' & E & _ & Ht).
  - apply Qle_bool_iff. reflexivity.
  - reflexivity.
  - exists a'. split; [exact E|]. simpl in Ht. apply Ht.
Defined.

(** X19.  [start_sending] of the copy never starts a thread for
    nothing: it either leaves the threads and [is_sending] as they
    were (no message in the box, or a delay that is missing or
    negative), or it starts exactly one sending thread, for the clean
    messages of the box and a delay that is not negative. *)
Theorem start_sending_guards (a : WorkingCopy.t) :
  let b := WorkingCopy.start_sending a in
  (WorkingCopy.threads b = WorkingCopy.threads a /\
   WorkingCopy.is_sending b = WorkingCopy.is_sending a /\
   (WorkingCopy.get_messages a = [] \/
    WorkingCopy.delay_var a = None \/
    exists d, WorkingCopy.delay_var a = Some d /\ d < 0)) \/
  (exists d,
     WorkingCopy.delay_var a = Some d /\ 0 <= d /\
     WorkingCopy.get_messages a <> [] /\
     (forall m, In m (WorkingCopy.get_messages a) -> clean m) /\
     WorkingCopy.threads b
     = (WorkingCopy.threads a
        ++ [WorkingCopy.SendMessages (WorkingCopy.get_messages a) d])%list /\
     WorkingCopy.is_sending b = true).
Proof.
  intros b. subst b. unfold WorkingCopy.start_sending.
  pose proof (copy_messages_clean a) as Hclean.
  destruct (WorkingCopy.get_messages a) as [|m ms] eqn:Em.
  - left. simpl. tauto.
  - unfold WorkingCopy.get_delay.
    destruct (WorkingCopy.delay_var a) as [d|] eqn:Ed.
    + destruct (Qltb d 0) eqn:El.
      * left. simpl. apply Qltb_lt in El. repeat split; try reflexivity.
        right. right. now exists d.
      * right. exists d. apply Qltb_ge in El. simpl.
        split; [reflexivity|]. split; [exact El|].
        split; [discriminate|]. split; [exact Hclean|].
        split; reflexivity.
    + left. simpl. tauto.
Qed.

End TextFacts.

(** ** Undo and redo in [main.py] *)

Section EditorFacts.
Import MainWindow.

(** X21.  Nothing in [main.py] ever puts a text on the undo stack
    except [redo], nor on the redo stack except [undo]: starting from
    the empty stacks of [__init__], no sequence of undo and redo keys
    changes the text of the box or fills a stack. *)
Theorem undo_redo_do_nothing (text : string) (keys : list key) :
  let a := fold_left press keys (init text) in
  text_area a = text /\ undo_stack a = [] /\ redo_stack a = [].
Proof.
  assert (H : forall a, undo_stack a = [] -> redo_stack a = [] ->
                        text_area (fold_left press keys a) = text_area a /\
                        undo_stack (fold_left press keys a) = [] /\
                        redo_stack (fold_left press keys a) = []).
  { induction keys as [|k keys IH]; intros a Hu Hr; simpl; [tauto|].
    assert (Hk : text_area (press a k) = text_area a /\
                 undo_stack (press a k) = [] /\
                 redo_stack (press a k) = []).
    { destruct k; simpl; unfold undo, redo; rewrite ?Hu, ?Hr; simpl;
        rewrite ?Hu, ?Hr; tauto. }
    destruct Hk as (Et & Eu & Er).
    destruct (IH (press a k) Eu Er) as (E1 & E2 & E3).
    rewrite E1, Et. tauto. }
  apply (H (init text)); reflexivity.
Qed.

End EditorFacts.

(** ** Blocking and unblocking of the limiter *)

Section LimiterBlockFacts.
Import DiscordRateLimiter.

Lemma filter_snoc_kept {A : Type} (f : A -> bool) (l : list A) (x : A) :
  f x = true -> filter f (l ++ [x]) = (filter f l ++ [x])%list.
Proof. intros H. rewrite filter_app. simpl. now rewrite H. Qed.

(** X24.  Right after a send the limiter refuses.  A call of
    [can_send_message] that follows [register_message_sent] by less
    than [rate_limit] seconds (and less than [burst_window]) answers
    [False], whatever the limiter was before. *)
Theorem can_send_message_blocks_after_send (s : t) (sent now : Q) :
  now - sent < rate_limit s -> now - sent < burst_window s ->
  fst (can_send_message (register_message_sent s sent) now) = false.
Proof.
  intros Hr Hw. unfold can_send_message, register_message_sent; simpl.
  unfold recent; simpl.
  rewrite filter_snoc_kept by (now apply Qltb_lt).
  destruct (_ <=? _)%Z; [reflexivity|]. simpl.
  rewrite last_last.
  destruct (filter _ (message_history s)); simpl;
    apply Qltb_lt in Hr; rewrite Hr; reflexivity.
Qed.

Lemma can_send_message_blocks_after_send_witness :
  (1 # 4) - 0 < rate_limit init /\ (1 # 4) - 0 < burst_window init /\
  fst (can_send_message (register_message_sent init 0) (1 # 4)) = false.
Proof.
  assert (H1 : (1 # 4) - 0 < rate_limit init) by reflexivity.
  assert (H2 : (1 # 4) - 0 < burst_window init) by reflexivity.
  split; [exact H1|]. split; [exact H2|].
  exact (can_send_message_blocks_after_send init 0 (1 # 4) H1 H2).
Defined.

(** X25.  The limiter never blocks beyond its window.  Once every
    send it remembers is at least [burst_window] old, and the
    threshold being positive, [can_send_message] forgets them all and
    answers [True], however many sends there were. *)
Theorem can_send_message_unblocks (s : t) (now : Q) :
  (0 < burst_threshold s)%Z ->
  Forall (fun y => burst_window s <= now - y) (message_history s) ->
  fst (can_send_message s now) = true /\
  message_history (snd (can_send_message s now)) = [].
Proof.
  intros Hbt Hold.
  assert (Hr : recent s now = []).
  { unfold recent. apply filter_none.
    eapply Forall_impl; [|exact Hold]. intros y Hy. simpl in Hy.
    now apply Qltb_ge. }
  unfold can_send_message; simpl. rewrite Hr. simpl.
  destruct (burst_threshold s <=? 0)%Z eqn:E; [apply Z.leb_le in E; lia|].
  simpl. split; reflexivity.
Qed.

Lemma can_send_message_unblocks_witness :
  let s := run (Usage.sends [0; 1; 2; 3; 4; 5; 6]) init in
  (0 < burst_threshold s)%Z /\
  Forall (fun y => burst_window s <= 16 - y) (message_history s) /\
  fst (can_send_message s 16) = true.
Proof.
  intros s.
  assert (H1 : (0 < burst_threshold s)%Z) by reflexivity.
  assert (H2 : Forall (fun y => burst_window s <= 16 - y)
                      (message_history s)).
  { subst s. simpl.
    repeat (constructor; [apply Qle_bool_iff; reflexivity|]).
    constructor. }
  split; [exact H1|]. split; [exact H2|].
  exact (proj1 (can_send_message_unblocks s 16 H1 H2)).
Defined.

End LimiterBlockFacts.
